(** * xspec_emcee: the MCMC driver [emcee_xspec.py]

  A shallow embedding of [writeXSpecChain], of the host list built by
  [main], of the initial walker positions built by [doMCMC], and of the
  evaluation pool the driver hands to the sampler.

  Python values are embedded as follows.
  - a [float] (numpy float64) is a primitive binary64 float;
  - an [int] is a [Z]; a [str] is a [string]; a [list] is a [list];
  - a numpy array is a record of its shape and its nested items;
  - an open text file is the list of the chunks written to it so far;
  - a raised exception is the left injection of a sum. *)

From Stdlib Require Import Floats ZArith String Ascii DecimalString.
From stdpp Require Import base list strings.

(** ** Python strings *)

Module Py.

Inductive exn := IndexError | ValueError | TypeError.

(** The characters that have no literal spelling here. *)
Definition nl : string := String "010"%char "".
Definition tab : string := String "009"%char "".
Definition dquote : string := String "034"%char "".

(** ['%i' % n] for an [int]: decimal digits, a leading minus sign for
    negative numbers. *)
Definition fmt_i (n : Z) : string := NilZero.string_of_int (Z.to_int n).

(** [sep.join(l)]. *)
Definition join (sep : string) (l : list string) : string := String.concat sep l.

(** [l[i]] for a list: negative indices count from the end, anything
    outside [-len(l) .. len(l)-1] raises [IndexError] (here [None]). *)
Definition getitem {A} (l : list A) (i : Z) : option A :=
  if (0 <=? i)%Z then l !! Z.to_nat i
  else if (- Z.of_nat (length l) <=? i)%Z then l !! Z.to_nat (Z.of_nat (length l) + i)
  else None.

(** [str.isspace] on one 8-bit character: space, tab, line feed, vertical
    tab, form feed, carriage return. *)
Definition isspace (c : ascii) : bool :=
  match c with
  | " "%char | "009"%char | "010"%char | "011"%char | "012"%char | "013"%char => true
  | _ => false
  end.

(** [s.split()] with no separator: the maximal runs of characters that are
    not whitespace, in order.  [cur] is the run being read, reversed. *)
Fixpoint split_go (cur : string) (s : string) : list string :=
  match s with
  | EmptyString => if decide (cur = "") then [] else [String.rev cur]
  | String c s' =>
      if isspace c
      then (if decide (cur = "") then split_go "" s'
            else String.rev cur :: split_go "" s')
      else split_go (String c cur) s'
  end.

Definition split (s : string) : list string := split_go "" s.

(** [s.split(sep)] for a one-character separator: every occurrence of the
    separator cuts, so there is always one more piece than separators. *)
Fixpoint split_on (sep : ascii) (s : string) : list string :=
  match s with
  | EmptyString => [""]
  | String c s' =>
      if decide (c = sep) then "" :: split_on sep s'
      else match split_on sep s' with
           | [] => [String c ""]
           | w :: ws => String c w :: ws
           end
  end.

End Py.

(** ** Files: a writer with exceptions *)

Module File.
Import Py.

(** The chunks written so far, oldest first; every [f.write] appends one. *)
Definition file := list string.

Definition io (A : Type) : Type := file → file * (exn + A).

Definition ret {A} (a : A) : io A := λ f, (f, inr a).

Definition bind {A B} (m : io A) (k : A → io B) : io B :=
  λ f, match m f with
       | (f', inr a) => k a f'
       | (f', inl e) => (f', inl e)
       end.

Definition write (s : string) : io unit := λ f, (f ++ [s], inr tt).

Definition raise {A} (e : exn) : io A := λ f, (f, inl e).

Definition lift {A} (r : exn + A) : io A :=
  match r with inl e => raise e | inr a => ret a end.

(** [for x in l: body(x)]. *)
Fixpoint for_each {A} (l : list A) (body : A → io unit) : io unit :=
  match l with
  | [] => ret tt
  | x :: l' => bind (body x) (λ _, for_each l' body)
  end.

(** [with open(filename, 'w') as f: body]: the file starts empty and keeps
    what was written when the body raises. *)
Definition with_open {A} (body : io A) : file * (exn + A) := body [].

End File.

Notation "m1 ;;; m2" := (File.bind m1 (λ _, m2))
(at level 100, m2 at level 200, right associativity).
Notation "x <~ m1 ;;; m2" := (File.bind m1 (λ x, m2))
(at level 100, m1 at next level, m2 at level 200, right associativity).

(** ** The chain file: [writeXSpecChain] *)

Module Chain.
Import Py File.

(** One entry of [pool.params]: a dictionary of which the writer reads the
    keys ['name'] and ['unit']. *)
Record param := Param { par_name : string; par_unit : string }.

(** [sampler.chain], of shape (walkers, iterations, parameters). *)
Record ndarray3 := NDArray3 {
  shape0 : nat; shape1 : nat; shape2 : nat;
  items3 : list (list (list float)) }.

(** [sampler.lnprobability], of shape (walkers, iterations). *)
Record ndarray2 := NDArray2 {
  lshape0 : nat; lshape1 : nat;
  items2 : list (list float) }.

(** The items of an array agree with its shape. *)
Definition wf3 (a : ndarray3) : bool :=
  (length (items3 a) =? shape0 a) &&
  forallb (λ w, (length w =? shape1 a) &&
                forallb (λ r, length r =? shape2 a) w) (items3 a).

(** The same for a two-dimensional array. *)
Definition wf2 (a : ndarray2) : bool :=
  (length (items2 a) =? lshape0 a) &&
  forallb (λ w, length w =? lshape1 a) (items2 a).

(** [chain[w][i]] and [lnprob[w][i]]. *)
Definition get3 (a : ndarray3) (w i : nat) : option (list float) :=
  items3 a !! w ≫= (.!! i).

Definition get2 (a : ndarray2) (w i : nat) : option float :=
  items2 a !! w ≫= (.!! i).

(** [N.dstack((chain, N.expand_dims(-lnprob, 2)))]: the negated
    log-probability becomes one more column of every row; the two arrays
    must agree on their first two axes, else [ValueError]. *)
Definition dstack_neg (chain : ndarray3) (lnprob : ndarray2)
  : exn + list (list (list float)) :=
  if (shape0 chain =? lshape0 lnprob) && (shape1 chain =? lshape1 lnprob)
  then inr (zip_with (zip_with (λ row l, row ++ [(- l)%float]))
              (items3 chain) (items2 lnprob))
  else inl ValueError.

Section Formatting.
(** ['%g' % x] for a float. *)
Variable fmt_g : float → string.

(** [fmt % args] for a format string whose only conversion is [%g]. *)
Fixpoint format_g (fmt : string) (args : list float) : exn + string :=
  match fmt with
  | EmptyString =>
      match args with [] => inr "" | _ :: _ => inl TypeError end
  | String "%" (String "g" rest) =>
      match args with
      | [] => inl TypeError
      | x :: args' =>
          match format_g rest args' with
          | inr s => inr (fmt_g x +:+ s)
          | inl e => inl e
          end
      end
  | String "%" _ => inl ValueError
  | String c rest =>
      match format_g rest args with
      | inr s => inr (String c s)
      | inl e => inl e
      end
  end.

(** The body of the innermost loop: one row of the table. *)
Definition write_line (line : list float) : io unit :=
  let fmt := join tab (replicate (length line) "%g") in
  s <~ lift (format_g fmt line) ;;;
  write (s +:+ nl).

(** One header entry, ["%i %s %s"]. *)
Definition hdr_entry (idx : Z) (p : param) : string :=
  fmt_i idx +:+ " " +:+ par_name p +:+ " " +:+
  (if decide (par_unit p = "") then "0" else par_unit p).

(** The loop [for idx in paridxs: hdr.append(...)]. *)
Fixpoint hdr_loop (params : list param) (paridxs : list Z)
         (hdr : list string) : exn + list string :=
  match paridxs with
  | [] => inr hdr
  | idx :: rest =>
      match getitem params (idx - 1) with
      | None => inl IndexError
      | Some p => hdr_loop params rest (hdr ++ [hdr_entry idx p])
      end
  end.

Definition writeXSpecChain (chain : ndarray3) (lnprob : ndarray2)
           (params : list param) (paridxs : list Z)
  : file * (exn + unit) :=
  with_open (
    write ("! Markov chain file generated by xspec " +:+ dquote +:+
           "chain" +:+ dquote +:+ " command." +:+ nl) ;;;
    write ("!    Do not modify, else file may not reload properly." +:+ nl) ;;;
    let length := (shape0 chain * shape1 chain)%nat in
    let width := shape2 chain in
    write ("!Length: " +:+ fmt_i (Z.of_nat length) +:+ "  Width: " +:+
           fmt_i (Z.of_nat width + 1) +:+ nl) ;;;
    hdr <~ lift (hdr_loop params paridxs []) ;;;
    let hdr := hdr ++ ["Chi-Squared"] in
    write ("!" +:+ join " " hdr +:+ nl) ;;;
    walkers <~ lift (dstack_neg chain lnprob) ;;;
    for_each walkers (λ walker,
      for_each walker write_line)).

End Formatting.

End Chain.

(** ** The host list: [main] *)

Module Main.

(** The value of [args.systems]: what followed [--systems] on the command
    line, or the declared default when the option is absent. *)
Definition args_systems (given : option string) : string :=
  default "localhost" given.

(** [systems = args.systems.split()], the host list handed to the pool. *)
Definition systems (given : option string) : list string :=
  Py.split (args_systems given).

End Main.

(** ** The initial walker positions: [doMCMC] *)

Module MCMC.
Import Py.
Local Open Scope float_scope.

(** The float64 nearest to the literal [0.01]. *)
Definition c0_01 : float := 0x1.47ae147ae147bp-7.

(** numpy's elementwise operations on a one-dimensional array. *)
Definition np_eq (a : list float) (x : float) : list bool :=
  map (λ y, PrimFloat.eqb y x) a.

Definition np_mul (a : list float) (x : float) : list float :=
  map (λ y, y * x) a.

Definition np_where (cond : list bool) (x : float) (b : list float) : list float :=
  zip_with (λ (c : bool) y, if c then x else y) cond b.

(** [parerrs = N.where( parvals == 0., 0.01, parvals * 0.01 )]. *)
Definition parerrs (parvals : list float) : list float :=
  np_where (np_eq parvals 0) c0_01 (np_mul parvals c0_01).

(** [numpy.random.normal] refuses, with [ValueError], a scale whose sign
    bit is set: a negative number, the negative infinity and the negative
    zero; a NaN is let through. *)
Definition scale_refused (s : float) : bool :=
  match classify s with
  | NInf | NNormal | NSubn | NZero => true
  | _ => false
  end.

(** Broadcasting of two one-dimensional arrays. *)
Definition broadcast (a b : list float) : option (list float * list float) :=
  if (length a =? length b)%nat then Some (a, b)
  else match a, b with
       | [x], _ => Some (replicate (length b) x, b)
       | _, [y] => Some (a, replicate (length a) y)
       | _, _ => None
       end.

Section Random.
(** The generator: the [k]-th standard normal deviate it hands out.
    Its state is the number of deviates drawn so far. *)
Variable gauss : nat → float.

Fixpoint draws (loc scale : list float) (k : nat) : list float * nat :=
  match loc, scale with
  | l :: loc', s :: scale' =>
      let '(r, k') := draws loc' scale' (S k) in
      ((l + s * gauss k) :: r, k')
  | _, _ => ([], k)
  end.

(** [N.random.normal(loc, scale)] for two arrays: one deviate per
    element, or [ValueError]. *)
Definition random_normal (loc scale : list float) (k : nat)
  : exn + (list float * nat) :=
  if existsb scale_refused scale then inl ValueError
  else match broadcast loc scale with
       | Some (loc', scale') => inr (draws loc' scale' k)
       | None => inl ValueError
       end.

(** [[ N.random.normal(parvals, parerrs) for i in xrange(nwalkers) ]]. *)
Fixpoint p0_loop (n : nat) (parvals errs : list float) (k : nat)
  : exn + (list (list float) * nat) :=
  match n with
  | O => inr ([], k)
  | S n' =>
      match random_normal parvals errs k with
      | inl e => inl e
      | inr (v, k') =>
          match p0_loop n' parvals errs k' with
          | inl e => inl e
          | inr (vs, k'') => inr (v :: vs, k'')
          end
      end
  end.

(** The part of [doMCMC] that builds [p0] from the catalogue's initial
    values; [xrange] of a negative count is empty. *)
Definition doMCMC_p0 (parvals : list float) (nwalkers : Z) (k : nat)
  : exn + (list (list float) * nat) :=
  p0_loop (Z.to_nat nwalkers) parvals (parerrs parvals) k.

End Random.

End MCMC.

(** ** The evaluation pool *)

Module Pool.

(** Modelled from the spec: the fatal errors of [emcee_pool] that reach
    the sampler (the module is not among the sources): the retry bound of
    batch index [i] is exceeded, or no worker is left. *)
Inductive error := EvaluationError (i : nat) | PoolExhaustedError.

Section Pool.
Context {V R : Type}.

(** The external engine: the likelihood of a parameter vector, the same
    on every worker. *)
Variable engine : V → R.

Variable retryBound : nat.
Variable nworkers : nat.

(** The environment.  [fails i r]: the evaluation of batch index [i]
    fails (time-out, transport error, dead worker) when that index has
    been retried [r] times before.  [pick t]: which of the evaluations
    in flight completes at step [t].  [respawns t]: the worker that
    failed at step [t] comes up again. *)
Variable fails : nat → nat → bool.
Variable pick : nat → nat.
Variable respawns : nat → bool.

(** Modelled from the spec: an entry of the work queue of [emcee_pool]: a
    batch index, its vector and its retry counter. *)
Record item := Item { it_index : nat; it_vector : V; it_retries : nat }.

(** Modelled from the spec: the pool of [emcee_pool] during one batch:
    the work queue, the items held by busy workers, the result slots, the
    log of attempted batch indices, the number of workers in rotation and
    the number of completions so far. *)
Record state := State {
  queue : list item;
  inflight : list item;
  slots : list (option R);
  attempts : list nat;
  workers : nat;
  clock : nat }.

(** Modelled from the spec: how [evaluate] of [emcee_pool] ends: with the
    results, with a fatal error, or not yet. *)
Inductive outcome :=
| Returned (rs : list R)
| Raised (e : error)
| Pending.

(** Modelled from the spec: the Dispatch Scheduler's continuous
    assignment (the repository's [emcee_pool] module is not among the
    sources).  Every idle worker pulls the next queued item. *)
Definition dispatch (st : state) : state :=
  let k := workers st - length (inflight st) in
  {| queue := drop k (queue st);
     inflight := inflight st ++ take k (queue st);
     slots := slots st; attempts := attempts st;
     workers := workers st; clock := clock st |}.

(** Modelled from the spec: the final assembly of the result array,
    read once every slot is filled. *)
Definition assemble (sl : list (option R)) : outcome :=
  match mapM id sl with
  | Some rs => Returned rs
  | None => Pending
  end.

(** Modelled from the spec: one completion, as seen by the Dispatch
    Scheduler and the Fault Supervisor of [emcee_pool].  A success fills
    the slot of its batch index; a failure requeues the item with its
    retry counter incremented, or is fatal for the batch once the
    counter has reached the bound; a worker that does not come up again
    leaves the rotation. *)
Definition step (st : state) : state + (list nat * outcome) :=
  let st := dispatch st in
  match inflight st with
  | [] =>
      match queue st with
      | [] => inr (attempts st, assemble (slots st))
      | _ :: _ => inr (attempts st, Raised PoolExhaustedError)
      end
  | _ :: _ =>
      let j := pick (clock st) mod length (inflight st) in
      match inflight st !! j with
      | None => inr (attempts st, Pending)
      | Some it =>
          let i := it_index it in
          let log := attempts st ++ [i] in
          if fails i (it_retries it) then
            if retryBound <=? it_retries it
            then inr (log, Raised (EvaluationError i))
            else inl {| queue := queue st ++
                                 [Item i (it_vector it) (S (it_retries it))];
                        inflight := delete j (inflight st);
                        slots := slots st; attempts := log;
                        workers := if respawns (clock st) then workers st
                                   else workers st - 1;
                        clock := S (clock st) |}
          else inl {| queue := queue st;
                      inflight := delete j (inflight st);
                      slots := <[i := Some (engine (it_vector it))]> (slots st);
                      attempts := log;
                      workers := workers st;
                      clock := S (clock st) |}
      end
  end.

(** Modelled from the spec: the scheduler of [emcee_pool] blocks until the
    batch is resolved; here for at most [fuel] completions. *)
Fixpoint run (fuel : nat) (st : state) : list nat * outcome :=
  match fuel with
  | O => (attempts st, Pending)
  | S fuel' =>
      match step st with
      | inl st' => run fuel' st'
      | inr r => r
      end
  end.

(** Modelled from the spec: the pool of [emcee_pool] when a batch comes
    in: every vector queued under its index, no slot filled. *)
Definition init (batch : list V) : state :=
  {| queue := imap (λ i v, Item i v 0) batch;
     inflight := [];
     slots := replicate (length batch) None;
     attempts := [];
     workers := nworkers;
     clock := 0 |}.

(** Modelled from the spec: the Pool Facade's [evaluate(batch)] of
    [emcee_pool]: blocks until the batch is resolved.  The result is the
    log of attempted batch indices and the outcome. *)
Definition evaluate (batch : list V) : list nat * outcome :=
  run (length batch * (retryBound + 1) + 1) (init batch).

(** Modelled from the spec: the number of attempts [emcee_pool] made on
    batch index [i], read off the log. *)
Definition attempted (i : nat) (log : list nat) : nat :=
  length (filter (λ j, j = i) log).

End Pool.

End Pool.

(** * The vocabulary of the properties *)

Section ChainVocabulary.
Import Py File Chain.
Variable fmt_g : float → string.

(** The text of one data row: the fields joined by tabs, and a newline. *)
Definition row_text (line : list float) : string :=
  join tab (map fmt_g line) +:+ nl.

(** The header entries, when every index can be looked up. *)
Definition entries (params : list param) (paridxs : list Z) : option (list string) :=
  mapM (λ idx, hdr_entry idx <$> getitem params (idx - 1)) paridxs.

(** The two fixed comment lines, the size declaration, the header line,
    and the three chunks written before the header line. *)
Definition comment_lines : list string :=
  [ "! Markov chain file generated by xspec " +:+ dquote +:+ "chain" +:+
    dquote +:+ " command." +:+ nl;
    "!    Do not modify, else file may not reload properly." +:+ nl ].

Definition length_line (L W : Z) : string :=
  "!Length: " +:+ fmt_i L +:+ "  Width: " +:+ fmt_i W +:+ nl.

Definition header_line (es : list string) : string :=
  "!" +:+ join " " (es ++ ["Chi-Squared"]) +:+ nl.

Definition preamble (chain : ndarray3) : list string :=
  comment_lines ++
  [length_line (Z.of_nat (shape0 chain * shape1 chain))
               (Z.of_nat (shape2 chain) + 1)].

(** A catalogue index is valid when it is 1-based and within the
    catalogue. *)
Definition valid_index (params : list param) (idx : Z) : Prop :=
  (1 ≤ idx ≤ Z.of_nat (length params))%Z.

End ChainVocabulary.

Section StringVocabulary.
Import Py.

(** The number of occurrences of [c] in [s]. *)
Fixpoint count_char (c : ascii) (s : string) : nat :=
  match s with
  | EmptyString => 0
  | String a s' => (if decide (a = c) then 1 else 0) + count_char c s'
  end.

(** Every character of [s] satisfies [f]. *)
Fixpoint string_forallb (f : ascii → bool) (s : string) : bool :=
  match s with
  | EmptyString => true
  | String c s' => f c && string_forallb f s'
  end.

(** No character of [s] is whitespace; every character of [s] is. *)
Definition no_space (s : string) : bool := string_forallb (λ c, negb (isspace c)) s.
Definition all_space (s : string) : bool := string_forallb isspace s.

(** [s] without its whitespace characters. *)
Fixpoint strip_spaces (s : string) : string :=
  match s with
  | EmptyString => ""
  | String c s' => if isspace c then strip_spaces s' else String c (strip_spaces s')
  end.

(** A host identifier: not empty, no whitespace inside. *)
Definition token (h : string) : Prop := h ≠ "" ∧ no_space h = true.

(** What [split_go] does with the run it has read so far. *)
Definition flush (cur : string) : list string :=
  if decide (cur = "") then [] else [String.rev cur].

End StringVocabulary.

(** The smallest positive normal float64, [sys.float_info.min]. *)
Definition min_normal : float := 0x1p-1022%float.


Section PoolVocabulary.
Import Pool.
Context {V R : Type}.
Variable engine : V → R.
Variables retryBound nworkers : nat.
Variable fails : nat → nat → bool.
Variable respawns : nat → bool.
Variable batch : list V.

Implicit Types (st : @state V R) (it : @item V) (os : list (@item V)).
Implicit Types (sl : list (option R)) (log : list nat).

(** The items that still await a result: in flight or queued. *)
Definition outstanding st : list item := inflight st ++ queue st.

(** The attempts an item may still consume, and their sum. *)
Definition budget it : nat := retryBound + 1 - it_retries it.
Definition work os : nat := sum_list_with budget os.

(** No worker ever leaves the rotation: every respawn succeeds, or no
    evaluation fails in the first place. *)
Definition steady : Prop :=
  (∀ t, respawns t = true) ∨ (∀ i k, fails i k = false).

(** Every batch index is either outstanding, exactly once, with as many
    logged attempts as retries, all failed; or its slot holds the value
    of the engine on its vector. *)
Record inv os sl log (w : nat) : Prop := Inv {
  inv_len : length sl = length batch;
  inv_nodup : NoDup (it_index <$> os);
  inv_out : ∀ it, it ∈ os →
    batch !! it_index it = Some (it_vector it) ∧
    it_retries it ≤ retryBound ∧
    sl !! it_index it = Some None ∧
    attempted (it_index it) log = it_retries it ∧
    ∀ k, k < it_retries it → fails (it_index it) k = true;
  inv_slot : ∀ i v, batch !! i = Some v →
    (∃ it, it ∈ os ∧ it_index it = i) ∨
    (sl !! i = Some (Some (engine v)) ∧
     attempted i log ≤ retryBound + 1 ∧
     ∃ k, fails i k = false);
  inv_log : ∀ i, length batch ≤ i → attempted i log = 0;
  inv_workers : steady → w = nworkers }.

(** The invariant, on a state of the pool. *)
Definition inv_state st : Prop :=
  inv (outstanding st) (slots st) (attempts st) (workers st).

(** What a finished evaluation guarantees. *)
Definition post (r : list nat * @outcome R) : Prop :=
  r.2 ≠ Pending ∧
  (∀ rs, r.2 = Returned rs →
     rs = engine <$> batch ∧
     ∀ i, i < length batch → ∃ k, fails i k = false) ∧
  (∀ j, attempted j r.1 ≤ retryBound + 1) ∧
  (∀ i, r.2 = Raised (EvaluationError i) →
     i < length batch ∧ attempted i r.1 = retryBound + 1 ∧
     last r.1 = Some i ∧
     ∀ k, k ≤ retryBound → fails i k = true) ∧
  (r.2 = Raised PoolExhaustedError → steady → nworkers = 0).

End PoolVocabulary.

(** A small run on which the statements are instantiated: two walkers,
    two iterations, two parameters; a formatting that shows the sign
    only. *)
Section Example.
Import Py Chain.
Local Open Scope float_scope.

Definition ex_fmt_g (x : float) : string :=
  if PrimFloat.ltb x 0 then "-1" else "1".

Definition ex_chain : ndarray3 :=
  NDArray3 2 2 2 [ [ [1; 2]; [3; 4] ]; [ [5; 6]; [7; 8] ] ].

Definition ex_lnprob : ndarray2 :=
  NDArray2 2 2 [ [-1; -2]; [-3; -4] ].

Definition ex_params : list param :=
  [ Param "kT" "keV"; Param "norm" "" ].

Definition ex_paridxs : list Z := [1; 2]%Z.

(** A stand-in for the engine: minus the sum of the squares. *)
Definition sumsq (v : list Z) : Z := (- foldr (λ x acc, x * x + acc) 0 v)%Z.

End Example.

(** ** More vocabulary: indices, tokens and lines *)

Section MoreVocabulary.
Import Py Chain.

(** [i] is an index Python accepts for [l]: from [-len(l)] to
    [len(l) - 1]. *)
Definition in_range {A} (l : list A) (i : Z) : Prop :=
  (- Z.of_nat (length l) ≤ i < Z.of_nat (length l))%Z.

(** The three words of a header entry. *)
Definition entry_tokens (idx : Z) (p : param) : list string :=
  [fmt_i idx; par_name p; if decide (par_unit p = "") then "0" else par_unit p].

(** The words of the header line: three per index, then the statistic. *)
Definition header_tokens (params : list param) (paridxs : list Z) : list string :=
  (paridxs ≫= λ idx, from_option (entry_tokens idx) [] (getitem params (idx - 1)))
  ++ ["Chi-Squared"].

(** A decimal digit or a minus sign. *)
Definition digit_or_minus (c : ascii) : bool :=
  match c with
  | "0" | "1" | "2" | "3" | "4" | "5" | "6" | "7" | "8" | "9" | "-" => true
  | _ => false
  end%char.

(** The line feed, and a text without line feed. *)
Definition lf : ascii := "010"%char.
Definition one_line (s : string) : Prop := count_char lf s = 0.

(** The text that ends on disk: the chunks one after the other. *)
Definition content (f : File.file) : string := String.concat "" f.

(** A parameter whose name is one word and whose unit is one word or
    empty. *)
Definition worded (p : param) : Prop :=
  token (par_name p) ∧ (par_unit p = "" ∨ token (par_unit p)).

End MoreVocabulary.

(** More inputs on which the statements are instantiated: an index
    outside the catalogue, indices that wrap around, log-probabilities of
    one walker only, and initial values of either sign. *)
Section MoreExamples.
Import Py Chain.
Local Open Scope float_scope.

Definition ex_bad_paridxs : list Z := [1; 3]%Z.

Definition ex_wrap_paridxs : list Z := [0; -1]%Z.

Definition ex_short_lnprob : ndarray2 := NDArray2 1 2 [ [-1; -2] ].


Definition ex_negative_parvals : list float := [1.5; -2].


End MoreExamples.

(** * Properties *)

(** ** The writer monad *)

Section FileFacts.
Import Py File.

Lemma bind_ok {A B} (m : io A) (k : A → io B) f f' a :
  m f = (f', inr a) → bind m k f = k a f'.
Proof. unfold bind. by intros ->. Qed.

(** A loop whose body only appends appends the concatenation. *)
Lemma for_each_appends {A} (body : A → io unit) (g : A → list string) l f :
  (∀ x f, body x f = (f ++ g x, inr tt)) →
  for_each l body f = (f ++ concat (map g l), inr tt).
Proof.
  intros Hbody. revert f. induction l as [|x l IH]; intros f; simpl.
  - by rewrite app_nil_r.
  - erewrite bind_ok by apply Hbody. rewrite IH. by rewrite app_assoc.
Qed.

End FileFacts.

(** ** Rows and header entries *)

Section ChainFacts.
Import Py File Chain.
Variable fmt_g : float → string.

Local Abbreviation row_text := (row_text fmt_g).

Lemma append_cons a (s t : string) : String a s +:+ t = String a (s +:+ t).
Proof. reflexivity. Qed.

Lemma append_nil_r (s : string) : s +:+ "" = s.
Proof. induction s as [|a s IH]; [done|]. by rewrite append_cons, IH. Qed.

Lemma append_assoc (s1 s2 s3 : string) : (s1 +:+ s2) +:+ s3 = s1 +:+ s2 +:+ s3.
Proof. induction s1 as [|a s1 IH]; [done|]. by rewrite !append_cons, IH. Qed.

(** The format built for a row has one conversion per field, so the
    formatting never raises. *)
Lemma format_g_row (line : list float) :
  format_g fmt_g (join tab (replicate (length line) "%g")) line
  = inr (join tab (map fmt_g line)).
Proof.
  induction line as [|x line IH]; [done|].
  destruct line as [|y line].
  - simpl. by rewrite append_nil_r.
  - change (join tab (replicate (length (x :: y :: line)) "%g"))
      with (String "%" (String "g" (String "009"
              (join tab (replicate (length (y :: line)) "%g"))))).
    cbn [format_g]. rewrite IH. reflexivity.
Qed.

Lemma write_line_appends line f :
  write_line fmt_g line f = (f ++ [row_text line], inr tt).
Proof.
  unfold write_line. erewrite bind_ok.
  2:{ rewrite format_g_row. reflexivity. }
  reflexivity.
Qed.

Lemma write_walkers (ws : list (list (list float))) f :
  for_each ws (λ walker, for_each walker (write_line fmt_g)) f
  = (f ++ map row_text (mjoin ws), inr tt).
Proof.
  erewrite (for_each_appends _ (map row_text)).
  - f_equal. f_equal. induction ws as [|w ws IH]; [done|].
    simpl. by rewrite map_app, IH.
  - intros w f'. erewrite (for_each_appends _ (λ l, [row_text l])).
    + f_equal. f_equal. induction w as [|l w IHw]; [done|].
      cbn [map concat app]. by rewrite IHw.
    + apply write_line_appends.
Qed.

Lemma hdr_loop_entries params paridxs hdr :
  hdr_loop params paridxs hdr
  = match entries params paridxs with
    | Some es => inr (hdr ++ es)
    | None => inl IndexError
    end.
Proof.
  revert hdr. induction paridxs as [|idx rest IH]; intros hdr; simpl.
  - by rewrite app_nil_r.
  - unfold entries. cbn [mapM].
    destruct (getitem params (idx - 1)) as [p|]; simpl; [|done].
    rewrite IH. unfold entries.
    destruct (mapM _ rest); simpl; [|done].
    by rewrite <- app_assoc.
Qed.

End ChainFacts.

(** ** The shape of the chain file *)

Section ChainFile.
Import Py File Chain.
Variable fmt_g : float → string.

(** What the writer leaves in the file, case by case. *)
Lemma writeXSpecChain_eq chain lnprob params paridxs :
  writeXSpecChain fmt_g chain lnprob params paridxs
  = match entries params paridxs with
    | None => (preamble chain, inl IndexError)
    | Some es =>
        match dstack_neg chain lnprob with
        | inl e => (preamble chain ++ [header_line es], inl e)
        | inr ws => (preamble chain ++ [header_line es] ++
                     map (row_text fmt_g) (mjoin ws), inr tt)
        end
    end.
Proof.
  unfold writeXSpecChain, with_open.
  do 3 (erewrite bind_ok by reflexivity).
  rewrite hdr_loop_entries.
  destruct (entries params paridxs) as [es|]; [|reflexivity].
  erewrite bind_ok by reflexivity.
  erewrite bind_ok by reflexivity.
  destruct (dstack_neg chain lnprob) as [e|ws]; [reflexivity|].
  erewrite bind_ok by reflexivity.
  cbv beta. rewrite write_walkers. reflexivity.
Qed.

Lemma wf3_shape a :
  wf3 a = true →
  length (items3 a) = shape0 a ∧
  Forall (λ w, length w = shape1 a ∧ Forall (λ r, length r = shape2 a) w)
         (items3 a).
Proof.
  unfold wf3. intros [H0 H1]%andb_true_iff. split.
  - by apply Nat.eqb_eq.
  - apply Forall_forall. intros w Hw%list_elem_of_In.
    rewrite forallb_forall in H1. apply H1 in Hw.
    apply andb_true_iff in Hw as [Hw1 Hw2]. split; [by apply Nat.eqb_eq|].
    apply Forall_forall. intros r Hr%list_elem_of_In.
    rewrite forallb_forall in Hw2. apply Nat.eqb_eq. by apply Hw2.
Qed.

Lemma wf2_shape a :
  wf2 a = true →
  length (items2 a) = lshape0 a ∧
  Forall (λ w, length w = lshape1 a) (items2 a).
Proof.
  unfold wf2. intros [H0 H1]%andb_true_iff. split.
  - by apply Nat.eqb_eq.
  - apply Forall_forall. intros w Hw%list_elem_of_In.
    rewrite forallb_forall in H1. apply Nat.eqb_eq. by apply H1.
Qed.

(** Stacking two well-formed arrays of matching shape gives one row of
    [shape2 + 1] fields per (walker, iteration). *)
Lemma dstack_neg_shape chain lnprob :
  wf3 chain = true → wf2 lnprob = true →
  shape0 chain = lshape0 lnprob → shape1 chain = lshape1 lnprob →
  ∃ ws, dstack_neg chain lnprob = inr ws ∧
        length ws = shape0 chain ∧
        Forall (λ w, length w = shape1 chain) ws ∧
        Forall (Forall (λ r, length r = shape2 chain + 1)) ws ∧
        ∀ w i pars ll, get3 chain w i = Some pars → get2 lnprob w i = Some ll →
                       ws !! w ≫= (.!! i) = Some (pars ++ [(- ll)%float]).
Proof.
  intros [Hc0 Hc]%wf3_shape [Hl0 Hl]%wf2_shape E0 E1.
  unfold dstack_neg. rewrite E0, E1, !Nat.eqb_refl. simpl.
  eexists. split; [reflexivity|].
  rewrite <- E0, <- E1 in *. clear E0 E1.
  unfold get3, get2.
  destruct chain as [a b c ci], lnprob as [a' b' li]; simpl in *.
  split; [|split; [|split]].
  - rewrite length_zip_with. lia.
  - apply Forall_forall. intros w (x & y & -> & Hx & Hy)%elem_of_zip_with.
    rewrite length_zip_with.
    rewrite Forall_forall in Hc. rewrite Forall_forall in Hl.
    specialize (Hc _ Hx) as [-> _].
    specialize (Hl _ Hy). lia.
  - apply Forall_forall. intros w (x & y & -> & Hx & Hy)%elem_of_zip_with.
    apply Forall_forall. intros r (row & l & -> & Hrow & _)%elem_of_zip_with.
    rewrite Forall_forall in Hc. specialize (Hc _ Hx) as [_ Hr].
    rewrite Forall_forall in Hr. rewrite length_app, (Hr _ Hrow). done.
  - intros w i pars ll Hp Hll. rewrite lookup_zip_with.
    destruct (ci !! w) as [cw|]; [|done].
    destruct (li !! w) as [lw|]; [|done]. simpl in *.
    rewrite lookup_zip_with, Hp, Hll. done.
Qed.

Lemma get3_is_Some chain w i :
  wf3 chain = true → w < shape0 chain → i < shape1 chain →
  is_Some (get3 chain w i).
Proof.
  intros [Hc0 Hc]%wf3_shape Hw Hi. unfold get3.
  destruct (lookup_lt_is_Some_2 (items3 chain) w) as [cw Hcw]; [lia|].
  rewrite Hcw. simpl. apply lookup_lt_is_Some_2.
  rewrite Forall_forall in Hc.
  destruct (Hc cw) as [-> _]; [by eapply list_elem_of_lookup_2|done].
Qed.

Lemma get2_is_Some lnprob w i :
  wf2 lnprob = true → w < lshape0 lnprob → i < lshape1 lnprob →
  is_Some (get2 lnprob w i).
Proof.
  intros [Hl0 Hl]%wf2_shape Hw Hi. unfold get2.
  destruct (lookup_lt_is_Some_2 (items2 lnprob) w) as [lw Hlw]; [lia|].
  rewrite Hlw. simpl. apply lookup_lt_is_Some_2.
  rewrite Forall_forall in Hl.
  rewrite (Hl lw); [done|by eapply list_elem_of_lookup_2].
Qed.

End ChainFile.

(** ** Header entries and catalogue indices *)

Section HeaderFacts.
Import Py File Chain.
Variable fmt_g : float → string.

Lemma getitem_one_based params idx :
  valid_index params idx →
  ∃ p, params !! (Z.to_nat idx - 1) = Some p ∧
       getitem params (idx - 1) = Some p.
Proof.
  unfold valid_index, getitem. intros [H1 H2].
  destruct (lookup_lt_is_Some_2 params (Z.to_nat idx - 1)) as [p Hp]; [lia|].
  exists p. split; [done|].
  destruct (Z.leb_spec 0 (idx - 1)); [|lia].
  by replace (Z.to_nat (idx - 1)) with (Z.to_nat idx - 1) by lia.
Qed.

Lemma entries_valid params paridxs :
  Forall (valid_index params) paridxs →
  ∃ es, entries params paridxs = Some es ∧
        length es = length paridxs ∧
        ∀ k idx, paridxs !! k = Some idx →
                 ∃ p, params !! (Z.to_nat idx - 1) = Some p ∧
                      es !! k = Some (hdr_entry idx p).
Proof.
  induction 1 as [|idx rest Hidx Hrest (es & Hes & Hlen & Hk)].
  - exists []. split; [done|]. split; [done|].
    intros k idx. by rewrite lookup_nil.
  - destruct (getitem_one_based _ _ Hidx) as (p & Hp & Hget).
    exists (hdr_entry idx p :: es). split; [|split].
    + unfold entries in *. cbn [mapM]. rewrite Hget. simpl. by rewrite Hes.
    + simpl. by rewrite Hlen.
    + intros [|k] idx'; simpl.
      * intros [= <-]. eauto.
      * apply Hk.
Qed.

(** With valid indices the header line is the fourth chunk; what follows
    are data rows only. *)
Lemma chain_file_layout chain lnprob params paridxs es :
  entries params paridxs = Some es →
  ∃ rows, (writeXSpecChain fmt_g chain lnprob params paridxs).1
          = preamble chain ++ [header_line es] ++ rows ∧
          Forall (λ r, ∃ fields, r = row_text fmt_g fields) rows.
Proof.
  intros Hes. rewrite writeXSpecChain_eq, Hes.
  destruct (dstack_neg chain lnprob) as [e|ws]; simpl.
  - exists []. split; [done|]. constructor.
  - eexists. split; [reflexivity|].
    apply Forall_forall. intros r Hr%list_elem_of_In.
    apply in_map_iff in Hr as (fields & <- & _). eauto.
Qed.

End HeaderFacts.

(** ** Counting the fields of a row *)

Section Fields.
Import Py.

Lemma split_on_length c s : length (split_on c s) = S (count_char c s).
Proof.
  induction s as [|a s IH]; [done|]. simpl.
  destruct (decide (a = c)); simpl; [by rewrite IH|].
  destruct (split_on c s); simpl in *; lia.
Qed.

Lemma count_char_append c s t :
  count_char c (s +:+ t) = count_char c s + count_char c t.
Proof.
  induction s as [|a s IH]; [done|].
  rewrite append_cons. simpl. rewrite IH. lia.
Qed.

Lemma count_char_join c ss :
  Forall (λ s, count_char c s = 0) ss →
  count_char c (join (String c "") ss) = length ss - 1.
Proof.
  induction 1 as [|s ss Hs Hss IH]; [done|].
  destruct ss as [|s' ss]; [simpl; lia|].
  change (join (String c "") (s :: s' :: ss))
    with (s +:+ String c "" +:+ join (String c "") (s' :: ss)).
  rewrite !count_char_append, Hs, IH. simpl.
  rewrite decide_True by done. lia.
Qed.

(** A row of [n ≥ 1] tab-free fields splits at the tabs into [n] pieces. *)
Lemma split_on_row (fmt_g : float → string) (fields : list float) :
  (∀ x, count_char "009" (fmt_g x) = 0) →
  fields ≠ [] →
  length (split_on "009" (join tab (map fmt_g fields) +:+ nl)) = length fields.
Proof.
  intros Hg Hne. rewrite split_on_length, count_char_append.
  unfold tab. rewrite count_char_join.
  - rewrite length_map. destruct fields; [done|]. simpl. lia.
  - apply Forall_forall. intros s Hs%list_elem_of_In.
    apply in_map_iff in Hs as (x & <- & _). apply Hg.
Qed.

End Fields.

(** ** Claims about the chain file *)

Section ChainClaims.
Import Py File Chain.
Variable fmt_g : float → string.

(** C2: after the four header chunks the file holds exactly one data row
    per (walker, iteration) pair, walker by walker and, within a walker,
    iteration by iteration; the row of walker [w] and iteration [i] is the
    tab-joined formatting of the parameter values [chain[w][i]] followed
    by the negated log-likelihood [-lnprob[w][i]]. *)
Theorem chain_rows_per_walker_iteration chain lnprob params paridxs :
  wf3 chain = true → wf2 lnprob = true →
  shape0 chain = lshape0 lnprob → shape1 chain = lshape1 lnprob →
  Forall (valid_index params) paridxs →
  let r := writeXSpecChain fmt_g chain lnprob params paridxs in
  r.2 = inr tt ∧
  length r.1 = 4 + shape0 chain * shape1 chain ∧
  ∀ w i, w < shape0 chain → i < shape1 chain →
    ∃ pars ll,
      get3 chain w i = Some pars ∧ get2 lnprob w i = Some ll ∧
      r.1 !! (4 + (w * shape1 chain + i))
      = Some (join tab (map fmt_g (pars ++ [(- ll)%float])) +:+ nl).
Proof.
  intros Hc Hl E0 E1 Hidx r. subst r.
  destruct (entries_valid _ _ Hidx) as (es & Hes & _).
  destruct (dstack_neg_shape _ _ Hc Hl E0 E1)
    as (ws & Hws & Hlen & Hrows & _ & Hget).
  rewrite writeXSpecChain_eq, Hes, Hws. simpl.
  split; [done|]. split.
  - do 4 f_equal. rewrite length_map, length_join.
    rewrite (sum_list_fmap_same (shape1 chain)) by done. by rewrite Hlen.
  - intros w i Hw Hi.
    destruct (get3_is_Some chain w i) as [pars Hp]; [done..|].
    destruct (get2_is_Some lnprob w i) as [ll Hll]; [done|lia..|].
    exists pars, ll. split; [done|]. split; [done|].
    specialize (Hget _ _ _ _ Hp Hll).
    change (map (row_text fmt_g) (mjoin ws))
      with (row_text fmt_g <$> mjoin ws).
    rewrite list_lookup_fmap.
    destruct (ws !! w) as [rw|] eqn:Hrw; [|done]. simpl in Hget.
    erewrite (proj2 (join_lookup_Some_same_length' _ ws w i _ Hrows Hi));
      [reflexivity|]. eauto.
Qed.

(** C3: with valid catalogue indices, the file is the three preamble
    chunks, then one header line, then data rows only; the header line
    lists one "index name unit" entry per element of [paridxs], made of
    that index and of the name and the unit (or [0] for an empty unit) of
    the catalogue entry it designates, and ends with the column
    [Chi-Squared]. *)
Theorem chain_header_one_line chain lnprob params paridxs :
  Forall (valid_index params) paridxs →
  ∃ es rows,
    (writeXSpecChain fmt_g chain lnprob params paridxs).1
    = preamble chain ++
      ["!" +:+ join " " (es ++ ["Chi-Squared"]) +:+ nl] ++ rows ∧
    length es = length paridxs ∧
    (∀ k idx, paridxs !! k = Some idx →
       ∃ p, params !! (Z.to_nat idx - 1) = Some p ∧
            es !! k = Some (fmt_i idx +:+ " " +:+ par_name p +:+ " " +:+
                            (if decide (par_unit p = "") then "0"
                             else par_unit p))) ∧
    Forall (λ r, ∃ fields, r = join tab (map fmt_g fields) +:+ nl) rows.
Proof.
  intros Hidx.
  destruct (entries_valid _ _ Hidx) as (es & Hes & Hlen & Hk).
  destruct (chain_file_layout fmt_g chain lnprob _ _ _ Hes) as (rows & Hout & Hrows).
  exists es, rows. split; [exact Hout|]. split; [done|]. split; [|done].
  intros k idx Hidxk. destruct (Hk _ _ Hidxk) as (p & Hp & Hesk).
  exists p. split; [exact Hp|exact Hesk].
Qed.

(** C4: with valid (1-based) catalogue indices, the [k]-th entry of the
    header line shows the index [paridxs[k]] with the name and the unit of
    the catalogue entry [params[paridxs[k]-1]], and the entries come in
    the order of [paridxs]. *)
Theorem chain_header_catalogue_order chain lnprob params paridxs :
  Forall (valid_index params) paridxs →
  ∃ es,
    (writeXSpecChain fmt_g chain lnprob params paridxs).1 !! 3
    = Some ("!" +:+ join " " (es ++ ["Chi-Squared"]) +:+ nl) ∧
    length es = length paridxs ∧
    ∀ k idx, paridxs !! k = Some idx →
      ∃ p, params !! (Z.to_nat idx - 1) = Some p ∧
           es !! k = Some (fmt_i idx +:+ " " +:+ par_name p +:+ " " +:+
                           (if decide (par_unit p = "") then "0"
                            else par_unit p)).
Proof.
  intros Hidx.
  destruct (entries_valid _ _ Hidx) as (es & Hes & Hlen & Hk).
  destruct (chain_file_layout fmt_g chain lnprob _ _ _ Hes) as (rows & Hout & _).
  exists es. rewrite Hout. split; [reflexivity|]. split; [done|]. exact Hk.
Qed.

(** C10: in the header line, the entry of a parameter whose catalogue
    unit is the empty string ends in the literal [0]; a non-empty unit is
    shown as it is. *)
Theorem chain_header_empty_unit chain lnprob params paridxs :
  Forall (valid_index params) paridxs →
  ∃ es,
    (writeXSpecChain fmt_g chain lnprob params paridxs).1 !! 3
    = Some ("!" +:+ join " " (es ++ ["Chi-Squared"]) +:+ nl) ∧
    ∀ k idx p, paridxs !! k = Some idx →
               params !! (Z.to_nat idx - 1) = Some p →
      (par_unit p = "" →
       es !! k = Some (fmt_i idx +:+ " " +:+ par_name p +:+ " " +:+ "0")) ∧
      (par_unit p ≠ "" →
       es !! k = Some (fmt_i idx +:+ " " +:+ par_name p +:+ " " +:+
                       par_unit p)).
Proof.
  intros Hidx.
  destruct (entries_valid _ _ Hidx) as (es & Hes & Hlen & Hk).
  destruct (chain_file_layout fmt_g chain lnprob _ _ _ Hes) as (rows & Hout & _).
  exists es. rewrite Hout. split; [reflexivity|].
  intros k idx p Hidxk Hp. destruct (Hk _ _ Hidxk) as (p' & Hp' & Hesk).
  assert (p' = p) as -> by congruence.
  rewrite Hesk. unfold hdr_entry. split; intros Hu.
  - by rewrite decide_True.
  - by rewrite decide_False.
Qed.

(** C8: the size declaration agrees with the contents.  The third chunk
    is ['!Length: L  Width: W'] with [L] the number of walkers times the
    number of iterations and [W] the number of parameters plus one; [L]
    data rows follow the header, and every one of them has [W] fields,
    which are its [W] tab-separated pieces as soon as no formatted number
    contains a tab. *)
Theorem chain_length_width_consistent chain lnprob params paridxs :
  (∀ x, count_char "009" (fmt_g x) = 0) →
  wf3 chain = true → wf2 lnprob = true →
  shape0 chain = lshape0 lnprob → shape1 chain = lshape1 lnprob →
  Forall (valid_index params) paridxs →
  let out := (writeXSpecChain fmt_g chain lnprob params paridxs).1 in
  let L := shape0 chain * shape1 chain in
  let W := shape2 chain + 1 in
  out !! 2 = Some ("!Length: " +:+ fmt_i (Z.of_nat L) +:+ "  Width: " +:+
                   fmt_i (Z.of_nat W) +:+ nl) ∧
  length (drop 4 out) = L ∧
  Forall (λ row, ∃ fields,
            length fields = W ∧
            row = join tab (map fmt_g fields) +:+ nl ∧
            length (split_on "009" row) = W) (drop 4 out).
Proof.
  intros Hg Hc Hl E0 E1 Hidx out L W. subst out L W.
  destruct (entries_valid _ _ Hidx) as (es & Hes & _).
  destruct (dstack_neg_shape _ _ Hc Hl E0 E1)
    as (ws & Hws & Hlen & Hrows & Hfields & _).
  rewrite writeXSpecChain_eq, Hes, Hws. simpl.
  split; [|split].
  - unfold length_line. by rewrite Nat2Z.inj_add.
  - rewrite drop_0, length_map, length_join.
    rewrite (sum_list_fmap_same (shape1 chain)) by done. by rewrite Hlen.
  - rewrite drop_0.
    apply Forall_forall. intros row Hrow%list_elem_of_In.
    apply in_map_iff in Hrow as (fields & <- & Hin%list_elem_of_In).
    apply list_elem_of_join in Hin as (w & Hfw & Hw).
    rewrite Forall_forall in Hfields. specialize (Hfields _ Hw).
    rewrite Forall_forall in Hfields. specialize (Hfields _ Hfw).
    exists fields. split; [done|]. split; [done|].
    unfold row_text. rewrite split_on_row; [done..|].
    intros ->. simpl in Hfields. lia.
Qed.

End ChainClaims.

(** ** Splitting at whitespace *)

Section SplitFacts.
Import Py.

Lemma rev_app_append s t : String.rev_app s t = String.rev s +:+ t.
Proof.
  unfold String.rev. revert t. induction s as [|a s IH]; intros t; [done|].
  simpl. rewrite IH, (IH (String a "")). by rewrite append_assoc.
Qed.

Lemma rev_cons a s : String.rev (String a s) = String.rev s +:+ String a "".
Proof. unfold String.rev at 1. simpl. apply rev_app_append. Qed.

Lemma rev_app_involutive s t :
  String.rev_app (String.rev_app s t) "" = String.rev_app t s.
Proof.
  revert t. induction s as [|a s IH]; intros t; [done|].
  simpl. by rewrite IH.
Qed.

Lemma rev_app_nil s t : String.rev_app s t = "" → s = "" ∧ t = "".
Proof.
  revert t. induction s as [|a s IH]; intros t; [done|].
  simpl. intros [_ [=]]%IH.
Qed.

Lemma no_space_rev_app s t :
  no_space (String.rev_app s t) = no_space s && no_space t.
Proof.
  unfold no_space. revert t. induction s as [|a s IH]; intros t; [done|].
  simpl. rewrite IH. simpl. by destruct (isspace a), (string_forallb _ s).
Qed.

Lemma concat_nil_cons x xs :
  String.concat "" (x :: xs) = x +:+ String.concat "" xs.
Proof. destruct xs; [by rewrite append_nil_r|done]. Qed.

Lemma split_go_nil cur : split_go cur "" = flush cur.
Proof. reflexivity. Qed.

Lemma split_go_space cur c s :
  isspace c = true → split_go cur (String c s) = flush cur ++ split_go "" s.
Proof. intros Hc. simpl. rewrite Hc. unfold flush. by destruct (decide _). Qed.

Lemma split_go_char cur c s :
  isspace c = false → split_go cur (String c s) = split_go (String c cur) s.
Proof. intros Hc. simpl. by rewrite Hc. Qed.

(** A whitespace character cuts: what is before and what is after it are
    split independently. *)
Lemma split_go_cut cur s1 c s2 :
  isspace c = true →
  split_go cur (s1 +:+ String c s2) = split_go cur s1 ++ split_go "" s2.
Proof.
  intros Hc. revert cur. induction s1 as [|a s1 IH]; intros cur.
  - change ("" +:+ String c s2) with (String c s2).
    by rewrite split_go_space, split_go_nil.
  - rewrite append_cons. destruct (isspace a) eqn:Ha.
    + rewrite !split_go_space by done. by rewrite IH, app_assoc.
    + rewrite !split_go_char by done. apply IH.
Qed.

(** A run without whitespace is read whole. *)
Lemma split_go_run cur t :
  no_space t = true → split_go cur t = flush (String.rev_app t cur).
Proof.
  revert cur. induction t as [|a t IH]; intros cur; [done|].
  intros Hns. unfold no_space in Hns. simpl in Hns.
  apply andb_true_iff in Hns as [Ha%negb_true_iff Ht].
  rewrite split_go_char by done. by apply IH.
Qed.

Lemma split_token t : token t → split t = [t].
Proof.
  intros [Hne Hns]. unfold split. rewrite split_go_run by done.
  unfold flush. destruct (decide _) as [[-> _]%rev_app_nil|_]; [done|].
  unfold String.rev. by rewrite rev_app_involutive.
Qed.

Lemma split_join_tokens hs : Forall token hs → split (join " " hs) = hs.
Proof.
  induction 1 as [|h hs Hh Hhs IH]; [done|].
  destruct hs as [|h' hs]; [by apply split_token|].
  change (join " " (h :: h' :: hs)) with (h +:+ String " " (join " " (h' :: hs))).
  pose proof (split_token h Hh) as Hsplit.
  unfold split in *. rewrite split_go_cut by done.
  by rewrite IH, Hsplit.
Qed.

Lemma split_go_tokens cur s :
  no_space cur = true → Forall token (split_go cur s).
Proof.
  assert (∀ cur, no_space cur = true → Forall token (flush cur)) as Hflush.
  { intros c Hc. unfold flush. destruct (decide _) as [|Hne]; constructor; [|done].
    unfold token, String.rev. rewrite no_space_rev_app, Hc. split; [|done].
    by intros [? _]%rev_app_nil. }
  revert cur. induction s as [|c s IH]; intros cur Hcur.
  - by apply Hflush.
  - destruct (isspace c) eqn:Hc.
    + rewrite split_go_space by done. apply Forall_app. split; [by apply Hflush|].
      by apply IH.
    + rewrite split_go_char by done. apply IH.
      unfold no_space in *. simpl. by rewrite Hc, Hcur.
Qed.

Lemma split_go_concat cur s :
  String.concat "" (split_go cur s) = String.rev cur +:+ strip_spaces s.
Proof.
  assert (∀ cur l, String.concat "" (flush cur ++ l)
                   = String.rev cur +:+ String.concat "" l) as Hflush.
  { intros c l. unfold flush. destruct (decide _) as [->|]; [done|].
    apply concat_nil_cons. }
  revert cur. induction s as [|c s IH]; intros cur.
  - rewrite split_go_nil. by rewrite <- (app_nil_r (flush cur)), Hflush.
  - simpl strip_spaces. destruct (isspace c) eqn:Hc.
    + rewrite split_go_space by done. by rewrite Hflush, IH.
    + rewrite split_go_char by done. rewrite IH, rev_cons. by rewrite append_assoc.
Qed.

Lemma split_go_empty cur s :
  split_go cur s = [] ↔ cur = "" ∧ all_space s = true.
Proof.
  revert cur. induction s as [|c s IH]; intros cur.
  - rewrite split_go_nil. unfold flush.
    destruct (decide (cur = "")); [by split|]. split; [done|]. by intros [? _].
  - destruct (isspace c) eqn:Hc.
    + rewrite split_go_space by done. unfold flush, all_space in *.
      cbn [string_forallb]. rewrite Hc.
      destruct (decide (cur = "")) as [->|]; simpl.
      * rewrite IH. by split; [intros [_ ?]|].
      * split; [done|]. by intros [? _].
    + rewrite split_go_char by done. rewrite IH. unfold all_space.
      cbn [string_forallb]. rewrite Hc. split; [by intros [? _]|by intros [_ ?]].
Qed.

End SplitFacts.

(** ** Claims about the host list *)

Section SystemsClaims.
Import Py Main.

(** C5, as the code has it: an absent [--systems] gives the single host
    [localhost]; a given value gives its whitespace-separated tokens, in
    order and with nothing else, one host each; so there is at least one
    host exactly when the value has a character that is not whitespace.
    The tokens are pinned down: a value that is one token gives that
    host, and every whitespace character (space, tab, line feed, vertical
    tab, form feed, carriage return) cuts, the hosts of what precedes it
    being followed by the hosts of what follows it. *)
Theorem systems_one_host_per_token :
  systems None = ["localhost"] ∧
  (∀ s, Forall token (systems (Some s)) ∧
        String.concat "" (systems (Some s)) = strip_spaces s ∧
        (1 ≤ length (systems (Some s)) ↔ all_space s = false)) ∧
  (∀ hs, Forall token hs → systems (Some (join " " hs)) = hs) ∧
  (∀ t, token t → systems (Some t) = [t]) ∧
  (∀ s1 c s2, isspace c = true →
     systems (Some (s1 +:+ String c s2))
     = systems (Some s1) ++ systems (Some s2)) ∧
  (∀ c, isspace c = true ↔
        c = " "%char ∨ c = "009"%char ∨ c = "010"%char ∨
        c = "011"%char ∨ c = "012"%char ∨ c = "013"%char).
Proof.
  split; [reflexivity|]. split; [|split; [|split; [|split]]].
  - intros s. unfold systems, args_systems, split. simpl. split; [|split].
    + by apply split_go_tokens.
    + by rewrite split_go_concat.
    + pose proof (split_go_empty "" s) as [Hs1 Hs2].
      destruct (split_go "" s) as [|h hs].
      * destruct (Hs1 eq_refl) as [_ ->]. simpl. split; [lia|done].
      * simpl. split; [|lia]. intros _.
        destruct (all_space s); [|done]. by discriminate Hs2.
  - intros hs Hhs. by apply split_join_tokens.
  - intros t Ht. by apply split_token.
  - intros s1 c s2 Hc. unfold systems, args_systems, split. simpl.
    by apply split_go_cut.
  - intros c. split.
    + destruct c as [[|] [|] [|] [|] [|] [|] [|] [|]]; simpl;
        intros H; try discriminate H; tauto.
    + intros [->|[->|[->|[->|[->| ->]]]]]; reflexivity.
Qed.

(** C5, as stated, fails for an empty value: no host at all, not
    [localhost]. *)
Lemma systems_empty_value_no_host :
  systems (Some "") = [] ∧
  ¬ (1 ≤ length (systems (Some ""))) ∧
  systems (Some "") ≠ ["localhost"].
Proof. split; [reflexivity|]. split; [simpl; lia|discriminate]. Qed.

End SystemsClaims.

(** ** Rounding in binary64 *)

Section FloatFacts.
Local Open Scope Z_scope.

Lemma digits2_size p : digits2_pos p = Pos.size p.
Proof. induction p as [p IH|p IH|]; simpl; congruence. Qed.

Lemma digits2_lower p k : 2 ^ k ≤ Zpos p → 0 ≤ k → k < Zpos (digits2_pos p).
Proof.
  intros Hp Hk. rewrite digits2_size.
  pose proof (Pos.size_gt p) as Hgt.
  apply Pos2Z.pos_lt_pos in Hgt. rewrite Pos2Z.inj_pow in Hgt.
  apply (Z.pow_lt_mono_r_iff 2); lia.
Qed.

Lemma shr_1_digits r :
  0 ≤ shr_m r →
  0 ≤ shr_m (shr_1 r) ∧
  Zdigits2 (shr_m (shr_1 r)) = Z.max 0 (Zdigits2 (shr_m r) - 1).
Proof.
  destruct r as [[|[p|p|]|p] b s]; simpl; intros H; try lia.
Qed.

Lemma iter_shr_1_digits p r :
  0 ≤ shr_m r →
  0 ≤ shr_m (SpecFloat.iter_pos shr_1 p r) ∧
  Zdigits2 (shr_m (SpecFloat.iter_pos shr_1 p r)) = Z.max 0 (Zdigits2 (shr_m r) - Zpos p).
Proof.
  revert r. induction p as [p IH|p IH|]; intros r Hr; cbn [SpecFloat.iter_pos].
  - destruct (shr_1_digits r Hr) as [H1 H2].
    destruct (IH _ H1) as [H3 H4]. destruct (IH _ H3) as [H5 H6].
    split; [done|]. rewrite H6, H4, H2. lia.
  - destruct (IH _ Hr) as [H3 H4]. destruct (IH _ H3) as [H5 H6].
    split; [done|]. rewrite H6, H4. lia.
  - by apply shr_1_digits.
Qed.

Lemma Zdigits2_pos_iff z : 0 ≤ z → (0 < Zdigits2 z ↔ 0 < z).
Proof. destruct z; simpl; lia. Qed.

(** A right shift that leaves at least one digit leaves a positive
    mantissa. *)
Lemma shr_positive r e n :
  0 < shr_m r → n < Zdigits2 (shr_m r) →
  0 < shr_m (shr r e n).1.
Proof.
  intros Hr Hn. unfold shr. destruct n as [|p|p]; simpl; [done| |done].
  destruct (iter_shr_1_digits p r) as [H1 H2]; [lia|].
  apply Zdigits2_pos_iff; [done|]. rewrite H2. lia.
Qed.

Lemma shr_exponent r e n :
  (shr r e n).2 = if decide (0 < n) then e + n else e.
Proof. unfold shr. destruct n; simpl; by rewrite ?decide_True, ?decide_False by lia. Qed.

Lemma round_nearest_even_ge m l : m ≤ round_nearest_even m l.
Proof.
  unfold round_nearest_even. destruct l as [|[| |]]; try lia.
  destruct (Z.even m); lia.
Qed.

Lemma shr_record_of_loc_m m l : shr_m (shr_record_of_loc m l) = m.
Proof. by destruct l as [|[| |]]. Qed.

(** Rounding a positive mantissa whose magnitude is above the smallest
    subnormal gives a finite number or an infinity of the same sign, never
    a zero. *)
Lemma binary_round_aux_signed s m e :
  0 < m → -1074 < Zdigits2 m + e →
  binary_round_aux prec emax s m e loc_Exact = S754_infinity s ∨
  ∃ m' e', binary_round_aux prec emax s m e loc_Exact = S754_finite s m' e'.
Proof.
  intros Hm Hmag. unfold binary_round_aux.
  destruct (shr_fexp prec emax m e loc_Exact) as [mrs1 e1] eqn:E1.
  set (m1 := round_nearest_even (shr_m mrs1) (loc_of_shr_record mrs1)).
  destruct (shr_fexp prec emax m1 e1 loc_Exact) as [mrs2 e2] eqn:E2.
  unfold shr_fexp in E1, E2.
  assert (0 < shr_m mrs1 ∧ -1074 ≤ e1) as [Hm1 He1].
  { pose proof (shr_positive (shr_record_of_loc m loc_Exact) e
                  (fexp prec emax (Zdigits2 m + e) - e)) as Hpos.
    pose proof (shr_exponent (shr_record_of_loc m loc_Exact) e
                  (fexp prec emax (Zdigits2 m + e) - e)) as Hexp.
    rewrite E1 in Hpos, Hexp. simpl in Hpos, Hexp.
    unfold fexp, emin, prec, emax in *. split.
    - apply Hpos; [done|]. lia.
    - subst e1. destruct (decide _); lia. }
  assert (0 < m1) as Hm1'.
  { pose proof (round_nearest_even_ge (shr_m mrs1) (loc_of_shr_record mrs1)).
    unfold m1. lia. }
  assert (0 < shr_m mrs2) as Hm2.
  { pose proof (shr_positive (shr_record_of_loc m1 loc_Exact) e1
                  (fexp prec emax (Zdigits2 m1 + e1) - e1)) as Hpos.
    rewrite E2 in Hpos. simpl in Hpos. apply Hpos; [done|].
    assert (0 < Zdigits2 m1) by (by apply Zdigits2_pos_iff; lia).
    unfold fexp, emin, prec, emax. lia. }
  destruct (shr_m mrs2); [lia| |lia].
  destruct (e2 <=? emax - prec); eauto.
Qed.



End FloatFacts.

Section ScaleNonzero.
Local Open Scope float_scope.

Lemma Prim2SF_c0_01 : Prim2SF MCMC.c0_01 = S754_finite false 5764607523034235 (-59).
Proof. vm_compute. reflexivity. Qed.

Lemma Prim2SF_min_normal :
  Prim2SF min_normal = S754_finite false 4503599627370496 (-1074).
Proof. vm_compute. reflexivity. Qed.

Lemma Prim2SF_zero : Prim2SF 0 = S754_zero false.
Proof. vm_compute. reflexivity. Qed.

Lemma SFeqb_zero_false X :
  (∀ s, X ≠ S754_zero s) → SFeqb X (S754_zero false) = false.
Proof.
  intros HX. destruct X as [s|s| |s m e]; [by destruct (HX s)|..];
    unfold SFeqb; simpl; try done; by destruct s.
Qed.

(** At or above the smallest normal number a finite float has a full
    mantissa. *)
Lemma normal_mantissa s m e :
  valid_binary (S754_finite s m e) = true →
  SFleb (S754_finite false 4503599627370496 (-1074)) (S754_finite false m e) = true →
  (2 ^ 52 ≤ Zpos m ∧ -1074 ≤ e)%Z.
Proof.
  unfold valid_binary, SpecFloat.valid_binary, bounded, canonical_mantissa,
    fexp, emin, prec, emax.
  intros [Hc%Z.eqb_eq _]%andb_true_iff Hle.
  unfold SFleb, SFcompare in Hle.
  change (Pos.compare_cont Eq ?a ?b) with (Pos.compare a b) in Hle.
  destruct (Z.compare_spec (-1074) e) as [<-|Hlt|Hgt]; [| |done].
  - split; [|lia].
    destruct (Pos.compare_spec 4503599627370496 m) as [<-|Hm|Hm]; [lia|lia|done].
  - split; [|lia].
    assert (Zpos (digits2_pos m) = 53)%Z as Hd by lia.
    rewrite digits2_size in Hd.
    pose proof (Pos.size_le m) as Hsz.
    apply Pos2Z.pos_le_pos in Hsz. rewrite Pos2Z.inj_pow, Hd in Hsz.
    rewrite Pos2Z.inj_xO in Hsz. change (2 ^ 53)%Z with (2 * 2 ^ 52)%Z in Hsz. lia.
Qed.

(** The product of a float in the normal range and 0.01 is finite or
    infinite, with the sign of the float. *)
Lemma mul_c0_01_normal x :
  (min_normal <=? abs x) = true →
  ∃ s, (Prim2SF x = S754_infinity s ∨ ∃ m e, Prim2SF x = S754_finite s m e) ∧
       (Prim2SF (x * MCMC.c0_01) = S754_infinity s ∨
        ∃ m e, Prim2SF (x * MCMC.c0_01) = S754_finite s m e).
Proof.
  rewrite FloatAxioms.leb_spec, FloatAxioms.abs_spec, FloatAxioms.mul_spec.
  rewrite Prim2SF_min_normal, Prim2SF_c0_01.
  pose proof (Prim2SF_valid x) as Hvalid.
  destruct (Prim2SF x) as [s|s| |s m e]; simpl SFabs; intros Hle; [done| |done|].
  - exists s. split; [by left|]. left. simpl. by destruct s.
  - exists s. split; [by eauto|].
    destruct (normal_mantissa _ _ _ Hvalid Hle) as [Hm He].
    unfold SF64mul, SFmul. replace (xorb s false) with s by (by destruct s).
    apply binary_round_aux_signed; [done|].
    assert (104 < Zdigits2 (Zpos (m * 5764607523034235)))%Z; [|lia].
    apply digits2_lower; [|lia].
    rewrite Pos2Z.inj_mul.
    change (2 ^ 104)%Z with (2 ^ 52 * 2 ^ 52)%Z.
    apply Z.mul_le_mono_nonneg; lia.
Qed.

(** The scale of a nonzero initial value is not zero as soon as the value
    is in the normal range. *)
Lemma scale_nonzero_normal x :
  (min_normal <=? abs x) = true → (x * MCMC.c0_01 =? 0) = false.
Proof.
  intros (s & _ & Hmul)%mul_c0_01_normal.
  rewrite FloatAxioms.eqb_spec, Prim2SF_zero.
  destruct Hmul as [->|(m & e & ->)]; by destruct s.
Qed.

(** The scale of a negative initial value in the normal range is
    negative. *)
Lemma scale_negative_normal x :
  (x <? 0) = true → (min_normal <=? abs x) = true →
  (x =? 0) = false ∧ (x * MCMC.c0_01 <? 0) = true.
Proof.
  intros Hneg (s & Hx & Hmul)%mul_c0_01_normal.
  rewrite FloatAxioms.ltb_spec, Prim2SF_zero in Hneg.
  rewrite FloatAxioms.eqb_spec, FloatAxioms.ltb_spec, Prim2SF_zero.
  destruct Hx as [Hx|(m & e & Hx)]; rewrite Hx in *;
    (destruct s; [|done]);
    destruct Hmul as [->|(m' & e' & ->)]; done.
Qed.

(** The scale of a positive initial value in the normal range is not
    negative. *)
Lemma scale_positive_normal x :
  (min_normal <=? x) = true → (x * MCMC.c0_01 <? 0) = false.
Proof.
  intros Hle.
  assert ((min_normal <=? abs x) = true ∧
          ∀ s, (Prim2SF x = S754_infinity s ∨
                ∃ m e, Prim2SF x = S754_finite s m e) → s = false)
    as [Habs Hsign].
  { rewrite FloatAxioms.leb_spec, Prim2SF_min_normal in Hle.
    rewrite FloatAxioms.leb_spec, FloatAxioms.abs_spec, Prim2SF_min_normal.
    destruct (Prim2SF x) as [s|s| |s m e]; [done| |done|].
    - destruct s; [done|]. split; [done|]. by intros s [[= <-]|(? & ? & [=])].
    - destruct s; [done|]. split; [done|]. by intros s [[=]|(? & ? & [= <- _ _])]. }
  destruct (mul_c0_01_normal x Habs) as (s & Hx & Hmul).
  rewrite (Hsign s Hx) in Hmul.
  rewrite FloatAxioms.ltb_spec, Prim2SF_zero.
  by destruct Hmul as [->|(m & e & ->)].
Qed.






End ScaleNonzero.

(** ** The perturbation scale and the initial positions *)

Section ScaleFacts.
Import Py MCMC.
Local Open Scope float_scope.

Lemma parerrs_length (parvals : list float) :
  length (parerrs parvals) = length parvals.
Proof.
  unfold parerrs, np_where, np_eq, np_mul.
  rewrite length_zip_with, !length_map. lia.
Qed.

Lemma parerrs_lookup (parvals : list float) i x :
  parvals !! i = Some x →
  parerrs parvals !! i
  = Some (if PrimFloat.eqb x 0 then c0_01 else x * c0_01).
Proof.
  intros Hx. unfold parerrs, np_where, np_eq, np_mul.
  rewrite lookup_zip_with.
  change (map ?f parvals) with (f <$> parvals).
  rewrite !list_lookup_fmap, Hx. reflexivity.
Qed.


(** C9, as the code has it: the scale has one entry per parameter; the
    entry of a parameter whose initial value compares equal to zero is
    0.01, the entry of any other parameter is the float64 product of its
    initial value and 0.01; and the scale is not zero when the initial
    value is zero or of magnitude at least the smallest normal float64. *)
Theorem parerrs_pointwise (parvals : list float) :
  length (parerrs parvals) = length parvals ∧
  ∀ i x, parvals !! i = Some x →
    ∃ s, parerrs parvals !! i = Some s ∧
         s = (if x =? 0 then c0_01 else x * c0_01) ∧
         ((x =? 0) = true ∨ (min_normal <=? abs x) = true →
          (s =? 0) = false).
Proof.
  split; [apply parerrs_length|].
  intros i x Hx. eexists. split; [by apply parerrs_lookup|].
  split; [done|]. intros [Hz|Hn].
  - rewrite Hz. reflexivity.
  - destruct (x =? 0); [reflexivity|]. by apply scale_nonzero_normal.
Qed.

(** C9, as stated, fails: the smallest positive float64 is not zero, and
    its scale is. *)
Lemma parerrs_underflow :
  PrimFloat.eqb 0x1p-1074 0 = false ∧
  parerrs [0x1p-1074] = [0] ∧
  ∃ s, parerrs [0x1p-1074] !! 0%nat = Some s ∧ PrimFloat.eqb s 0 = true.
Proof.
  split; [reflexivity|]. split; [reflexivity|].
  exists 0. split; reflexivity.
Qed.

End ScaleFacts.

Section InitialPositions.
Import Py MCMC.
Local Open Scope float_scope.
Variable gauss : nat → float.







(** The same for the smallest negative value, whose scale is the negative
    zero. *)
Example doMCMC_p0_tiny_negative_value_raises k :
  parerrs [-0x1p-1074] = [-0] ∧
  doMCMC_p0 gauss [-0x1p-1074] 4 k = inl ValueError.
Proof. split; reflexivity. Qed.

(** C7 at a catalogue with a negative initial value: the scale of that
    parameter is negative, the sampler refuses it, and no batch is
    built. *)
Theorem doMCMC_p0_negative_value_raises k :
  parerrs [-1] = [-0x1.47ae147ae147bp-7] ∧
  doMCMC_p0 gauss [-1] 50 k = inl ValueError.
Proof. split; reflexivity. Qed.

End InitialPositions.

(** ** The pool: invariant and progress *)

Section PoolFacts.
Import Pool.
Context {V R : Type}.
Variable engine : V → R.
Variables retryBound nworkers : nat.
Variable fails : nat → nat → bool.
Variable pick : nat → nat.
Variable respawns : nat → bool.
Variable batch : list V.

Implicit Types (st : @state V R) (it : @item V) (os : list (@item V)).
Implicit Types (sl : list (option R)) (log : list nat).

Local Abbreviation budget := (budget retryBound).
Local Abbreviation work := (work retryBound).
Local Abbreviation steady := (steady fails respawns).
Local Abbreviation inv := (inv engine retryBound nworkers fails respawns batch).
Local Abbreviation inv_state :=
  (inv_state engine retryBound nworkers fails respawns batch).
Local Abbreviation post := (post engine retryBound nworkers fails respawns batch).

Lemma attempted_snoc i j log :
  attempted i (log ++ [j])
  = attempted i log + (if decide (j = i) then 1 else 0).
Proof.
  unfold attempted. rewrite filter_app, length_app. f_equal.
  rewrite filter_cons, filter_nil. by destruct (decide (j = i)).
Qed.

Lemma inv_perm os os' sl log w :
  os ≡ₚ os' → inv os sl log w → inv os' sl log w.
Proof.
  intros Hp [H1 H2 H3 H4 H5 H6]. split; [done| |..|done|done].
  - by rewrite <- Hp.
  - intros it Hit. apply H3. by rewrite Hp.
  - intros i v Hv. destruct (H4 i v Hv) as [(it & Hit & <-)|?]; [|by right].
    left. exists it. by rewrite <- Hp.
Qed.

Lemma inv_attempts_bound os sl log w j :
  inv os sl log w → attempted j log ≤ retryBound + 1.
Proof.
  intros [H1 H2 H3 H4 H5 H6].
  destruct (decide (j < length batch)) as [Hj|Hj].
  - destruct (lookup_lt_is_Some_2 batch j Hj) as [v Hv].
    destruct (H4 j v Hv) as [(it & Hit & <-)|(_ & ? & _)]; [|done].
    destruct (H3 it Hit) as (_ & ? & _ & -> & _). lia.
  - rewrite H5; lia.
Qed.

(** A success fills the slot of the item and retires it. *)
Lemma inv_success it rest sl log w :
  inv (it :: rest) sl log w →
  fails (it_index it) (it_retries it) = false →
  inv rest (<[it_index it := Some (engine (it_vector it))]> sl)
      (log ++ [it_index it]) w.
Proof.
  intros [H1 H2 H3 H4 H5 H6] Hok.
  destruct (H3 it) as (Hb & Hr & Hs & Ha & Hf); [by left|].
  rewrite fmap_cons in H2. apply NoDup_cons in H2 as [Hnotin Hnd].
  assert (∀ it', it' ∈ rest → it_index it' ≠ it_index it) as Hne.
  { intros it' Hit' Heq. apply Hnotin. rewrite <- Heq.
    by apply list_elem_of_fmap_2. }
  split.
  - by rewrite length_insert.
  - done.
  - intros it' Hit'. specialize (Hne _ Hit').
    destruct (H3 it') as (? & ? & ? & ? & ?); [by right|].
    rewrite list_lookup_insert_ne by done.
    rewrite attempted_snoc, decide_False by done.
    repeat split; [done..|lia|done].
  - intros i v Hv. destruct (decide (i = it_index it)) as [->|Hi].
    + right. assert (v = it_vector it) as -> by congruence.
      rewrite list_lookup_insert_eq
        by (rewrite H1; by eapply lookup_lt_Some).
      rewrite attempted_snoc, decide_True by done.
      split; [done|]. split; [lia|]. eauto.
    + destruct (H4 i v Hv) as [(it' & Hit' & <-)|(? & ? & ?)].
      * left. exists it'. split; [|done].
        apply elem_of_cons in Hit' as [->|Hit']; done.
      * right. rewrite list_lookup_insert_ne by done.
        rewrite attempted_snoc, decide_False by done.
        split; [done|]. split; [lia|done].
  - intros i Hi. rewrite attempted_snoc, H5 by done.
    apply lookup_lt_Some in Hb. rewrite decide_False by lia. done.
  - done.
Qed.

(** A failure below the bound requeues the item with one more retry. *)
Lemma inv_retry it rest sl log w w' :
  inv (it :: rest) sl log w →
  fails (it_index it) (it_retries it) = true →
  it_retries it < retryBound →
  (steady → w' = w) →
  inv (Item (it_index it) (it_vector it) (S (it_retries it)) :: rest) sl
      (log ++ [it_index it]) w'.
Proof.
  intros [H1 H2 H3 H4 H5 H6] Hfail Hlt Hw.
  destruct (H3 it) as (Hb & Hr & Hs & Ha & Hf); [by left|].
  pose proof H2 as H2'.
  rewrite fmap_cons in H2'. apply NoDup_cons in H2' as [Hnotin Hnd].
  assert (∀ it', it' ∈ rest → it_index it' ≠ it_index it) as Hne.
  { intros it' Hit' Heq. apply Hnotin. rewrite <- Heq.
    by apply list_elem_of_fmap_2. }
  split.
  - done.
  - done.
  - intros it' [->|Hit']%elem_of_cons; simpl.
    + rewrite attempted_snoc, decide_True by done.
      repeat split; [done|lia|done|lia|].
      intros k Hk. destruct (decide (k = it_retries it)) as [->|]; [done|].
      apply Hf. lia.
    + specialize (Hne _ Hit').
      destruct (H3 it') as (? & ? & ? & ? & ?); [by right|].
      rewrite attempted_snoc, decide_False by done.
      repeat split; [done..|lia|done].
  - intros i v Hv. destruct (H4 i v Hv) as [(it' & Hit' & <-)|(? & ? & ?)].
    + left. apply elem_of_cons in Hit' as [->|Hit'].
      * eexists. split; [by left|done].
      * exists it'. split; [by right|done].
    + right. split; [done|]. split; [|done].
      destruct (decide (it_index it = i)) as [<-|Hi].
      * congruence.
      * rewrite attempted_snoc, decide_False by done. lia.
  - intros i Hi. rewrite attempted_snoc, H5 by done.
    apply lookup_lt_Some in Hb. rewrite decide_False by lia. done.
  - intros Hall. rewrite Hw by done. by apply H6.
Qed.

Lemma dispatch_outstanding st : outstanding (dispatch st) = outstanding st.
Proof.
  unfold outstanding, dispatch. simpl.
  by rewrite <- app_assoc, take_drop.
Qed.

Lemma assemble_full sl :
  length sl = length batch →
  (∀ i v, batch !! i = Some v → sl !! i = Some (Some (engine v))) →
  assemble sl = Returned (engine <$> batch).
Proof.
  intros Hlen Hfull. unfold assemble.
  assert (mapM id sl = Some (engine <$> batch)) as ->; [|done].
  apply mapM_Some, Forall2_same_length_lookup_2.
  - by rewrite length_fmap.
  - intros i x y Hx Hy. rewrite list_lookup_fmap in Hy.
    destruct (batch !! i) as [v|] eqn:Hv; simplify_eq/=.
    rewrite (Hfull _ _ Hv) in Hx. by simplify_eq.
Qed.

Lemma work_cons it rest : work (it :: rest) = budget it + work rest.
Proof. reflexivity. Qed.

(** One step keeps the invariant and consumes work, or finishes. *)
Lemma step_spec st :
  inv_state st →
  match step engine retryBound fails pick respawns st with
  | inl st' => inv_state st' ∧ work (outstanding st') < work (outstanding st)
  | inr r => post r
  end.
Proof.
  unfold inv_state. rewrite <- (dispatch_outstanding st).
  change (slots st) with (slots (dispatch st)).
  change (attempts st) with (attempts (dispatch st)).
  change (workers st) with (workers (dispatch st)).
  unfold step. cbv zeta.
  assert (inflight (dispatch st) = [] → queue (dispatch st) ≠ [] →
          workers (dispatch st) = 0) as Hstarved.
  { unfold dispatch. simpl. intros [Hin Htake]%app_eq_nil Hq.
    rewrite Hin in *. simpl in *.
    destruct (workers st - 0) as [|k] eqn:Hk; [lia|].
    destruct (queue st); simpl in *; done. }
  generalize dependent (dispatch st). clear st. intros st Hstarved Hinv.
  simpl in Hstarved.
  unfold outstanding in *.
  destruct (inflight st) as [|it0 infl] eqn:Hinfl.
  - destruct (queue st) as [|q qs] eqn:Hq; simpl in *.
    + (* every slot is filled *)
      destruct Hinv as [H1 H2 H3 H4 H5 H6].
      assert (∀ i v, batch !! i = Some v →
                slots st !! i = Some (Some (engine v)) ∧
                attempted i (attempts st) ≤ retryBound + 1 ∧
                ∃ k, fails i k = false) as Hfull.
      { intros i v Hv. destruct (H4 i v Hv) as [(it & Hit & _)|?]; [|done].
        by apply elem_of_nil in Hit. }
      unfold post. simpl. rewrite assemble_full; [|done|].
      2:{ intros i v Hv. by destruct (Hfull i v Hv). }
      split; [done|]. split; [|split; [|split]]; try done.
      * intros rs [= <-]. split; [done|]. intros i Hi.
        destruct (lookup_lt_is_Some_2 batch i Hi) as [v Hv].
        by destruct (Hfull i v Hv) as (_ & _ & ?).
      * intros j. destruct (decide (j < length batch)) as [Hj|Hj].
        -- destruct (lookup_lt_is_Some_2 batch j Hj) as [v Hv].
           by destruct (Hfull j v Hv) as (_ & ? & _).
        -- rewrite H5; lia.
    + (* queued items and nobody to take them *)
      unfold post. simpl. split; [done|]. split; [done|].
      split; [|split; [done|]].
      * intros j. by eapply inv_attempts_bound.
      * intros _ Hall. destruct Hinv as [_ _ _ _ _ Hw].
        rewrite <- (Hw Hall). by apply Hstarved.
  - rewrite <- Hinfl in *. clear Hstarved.
    set (j := pick (clock st) mod length (inflight st)).
    assert (j < length (inflight st)) as Hj.
    { apply Nat.mod_upper_bound. rewrite Hinfl. done. }
    destruct (lookup_lt_is_Some_2 _ _ Hj) as [it Hit]. rewrite Hit.
    assert (inflight st ++ queue st
            ≡ₚ it :: (delete j (inflight st) ++ queue st)) as Hperm.
    { by rewrite (delete_Permutation _ _ _ Hit) at 1. }
    assert (work (inflight st ++ queue st)
            = budget it + work (delete j (inflight st) ++ queue st)) as ->.
    { unfold work. by rewrite Hperm. }
    apply (inv_perm _ _ _ _ _ Hperm) in Hinv.
    pose proof Hinv as [_ _ Hout _ _ _].
    destruct (Hout it) as (Hb & Hr & Hs & Ha & Hf); [by left|]. clear Hout.
    destruct (fails (it_index it) (it_retries it)) eqn:Hfail.
    + destruct (Nat.leb_spec retryBound (it_retries it)) as [Hge|Hlt].
      * (* the bound is exceeded *)
        unfold post. simpl. split; [done|]. split; [done|].
        split; [|split; [|done]].
        -- intros i. rewrite attempted_snoc.
           destruct (decide (it_index it = i)) as [<-|]; [lia|].
           pose proof (inv_attempts_bound _ _ _ _ i Hinv). lia.
        -- intros i [= <-]. rewrite attempted_snoc, decide_True by done.
           split; [by eapply lookup_lt_Some|]. split; [lia|].
           split; [by rewrite last_snoc|].
           intros k Hk. destruct (decide (k = it_retries it)) as [->|]; [done|].
           apply Hf. lia.
      * (* requeued *)
        simpl. split.
        -- eapply inv_perm; [|apply (inv_retry _ _ _ _ _ _ Hinv Hfail Hlt)].
           ++ rewrite (assoc_L (++)). by rewrite <- Permutation_cons_append.
           ++ intros [Hall|Hnone]; [by rewrite Hall|].
              by rewrite Hnone in Hfail.
        -- unfold work. rewrite (assoc_L (++)), sum_list_with_app. simpl.
           unfold budget. simpl. lia.
    + (* the slot is filled *)
      simpl. split.
      * by apply inv_success.
      * unfold budget. lia.
Qed.

Lemma run_spec fuel st :
  inv_state st → work (outstanding st) < fuel →
  post (run engine retryBound fails pick respawns fuel st).
Proof.
  revert st. induction fuel as [|fuel IH]; intros st Hinv Hwork; [lia|].
  simpl. pose proof (step_spec st Hinv) as Hstep.
  destruct (step _ _ _ _ _ st) as [st'|r]; [|done].
  destruct Hstep as [Hinv' Hless]. apply IH; [done|lia].
Qed.

Lemma init_inv : inv_state (init nworkers batch).
Proof.
  unfold inv_state, outstanding, init. simpl. split.
  - by rewrite length_replicate.
  - rewrite fmap_imap. simpl.
    rewrite (imap_ext _ (λ i _, i)) by done.
    rewrite imap_seq_0. rewrite list_fmap_id. apply NoDup_seq.
  - intros it (i & v & -> & Hv)%elem_of_lookup_imap. simpl.
    split; [done|]. split; [lia|]. split; [|split; [done|lia]].
    apply lookup_replicate_2. by eapply lookup_lt_Some.
  - intros i v Hv. left. exists (Item i v 0). split; [|done].
    apply elem_of_lookup_imap. eauto.
  - done.
  - done.
Qed.

Lemma work_imap (f : nat → V → @item V) (l : list V) c :
  (∀ i v, budget (f i v) = c) → work (imap f l) = length l * c.
Proof.
  revert f. induction l as [|v l IH]; intros f Hf; [done|].
  rewrite imap_cons, work_cons, Hf, IH; [simpl; lia|].
  intros i v'. apply Hf.
Qed.

Lemma init_work :
  work (outstanding (init (R:=R) nworkers batch))
  = length batch * (retryBound + 1).
Proof.
  unfold outstanding, init. simpl. apply work_imap.
  intros i v. unfold budget. simpl. lia.
Qed.

(** The pool always resolves the batch, and what it reports is right. *)
Lemma evaluate_post :
  post (evaluate engine retryBound nworkers fails pick respawns batch).
Proof.
  unfold evaluate. apply run_spec; [apply init_inv|].
  rewrite init_work. lia.
Qed.

End PoolFacts.

(** ** Claims about the pool *)

Section PoolClaims.
Import Pool.
Context {V R : Type}.
Variable engine : V → R.
Variables retryBound nworkers : nat.
Variable fails : nat → nat → bool.
Variable pick : nat → nat.
Variable respawns : nat → bool.
Variable batch : list V.

(** When no evaluation fails and there is a worker, the batch is
    returned. *)
Lemma evaluate_all_succeed :
  (∀ i k, fails i k = false) → 1 ≤ nworkers →
  (evaluate engine retryBound nworkers fails pick respawns batch).2
  = Returned (engine <$> batch).
Proof.
  intros Hok Hw.
  destruct (evaluate_post engine retryBound nworkers fails pick respawns batch)
    as (Hpending & Hret & _ & Hfatal & Hnone).
  destruct (evaluate _ _ _ _ _ _ _) as [log [rs|[i|]|]]; simpl in *.
  - by destruct (Hret rs eq_refl) as [-> _].
  - destruct (Hfatal i eq_refl) as (_ & _ & _ & Hf).
    specialize (Hf 0). rewrite Hok in Hf. discriminate Hf. lia.
  - specialize (Hnone eq_refl (or_intror Hok)). lia.
  - done.
Qed.

(** C1: whatever fails, whichever evaluation completes first and
    whichever worker comes up again, [evaluate] either raises a fatal
    error or returns as many values as the batch has vectors, the [i]-th
    value being the likelihood of the [i]-th vector. *)
Theorem evaluate_index_fidelity :
  let r := evaluate engine retryBound nworkers fails pick respawns batch in
  (∃ e, r.2 = Raised e) ∨
  (∃ rs, r.2 = Returned rs ∧
         length rs = length batch ∧
         ∀ i v, batch !! i = Some v → rs !! i = Some (engine v)).
Proof.
  intros r. subst r.
  destruct (evaluate_post engine retryBound nworkers fails pick respawns batch)
    as (Hpending & Hret & _).
  destruct (evaluate _ _ _ _ _ _ _) as [log [rs|e|]]; simpl in *.
  - right. exists rs. destruct (Hret rs eq_refl) as [-> _].
    split; [done|]. split; [by rewrite length_fmap|].
    intros i v Hv. by rewrite list_lookup_fmap, Hv.
  - left. eauto.
  - done.
Qed.

(** C6, as the pool has it: no batch index is attempted more than
    [retryBound + 1] times; the index whose [EvaluationError] is raised
    has been attempted exactly [retryBound + 1] times, all failed, the
    last of them being the last attempt of the batch; a batch
    with an index that always fails ends in a fatal error; and when that
    index is the only one to fail, with a worker that always comes up
    again, the error is its [EvaluationError], after exactly
    [retryBound + 1] attempts. *)
Theorem retry_bound_respected :
  let r := evaluate engine retryBound nworkers fails pick respawns batch in
  (∀ j, attempted j r.1 ≤ retryBound + 1) ∧
  (∀ i, r.2 = Raised (EvaluationError i) →
     i < length batch ∧ attempted i r.1 = retryBound + 1 ∧
     last r.1 = Some i ∧
     ∀ k, k ≤ retryBound → fails i k = true) ∧
  (∀ i, i < length batch → (∀ k, fails i k = true) → ∃ e, r.2 = Raised e) ∧
  (∀ i, i < length batch → (∀ k, fails i k = true) →
     (∀ j k, j ≠ i → fails j k = false) →
     (∀ t, respawns t = true) → 1 ≤ nworkers →
     r.2 = Raised (EvaluationError i) ∧ attempted i r.1 = retryBound + 1).
Proof.
  intros r. subst r.
  destruct (evaluate_post engine retryBound nworkers fails pick respawns batch)
    as (Hpending & Hret & Hbound & Hfatal & Hnone).
  split; [done|]. split; [done|].
  assert (∀ i, i < length batch → (∀ k, fails i k = true) →
            ∃ e, (evaluate engine retryBound nworkers fails pick respawns
                    batch).2 = Raised e) as Hraised.
  { intros i Hi Hall.
    destruct (evaluate _ _ _ _ _ _ _).2 as [rs|e|]; [|by eauto|done].
    destruct (Hret rs eq_refl) as [_ Hsucc].
    destruct (Hsucc i Hi) as [k Hk]. by rewrite Hall in Hk. }
  split; [done|].
  intros i Hi Hall Hothers Hresp Hw.
  destruct (Hraised i Hi Hall) as [[j|] He].
  - destruct (Hfatal j He) as (_ & Hj & _ & Hf).
    destruct (decide (j = i)) as [->|Hne]; [done|].
    specialize (Hf 0). rewrite Hothers in Hf by done. discriminate Hf. lia.
  - specialize (Hnone He (or_introl Hresp)). lia.
Qed.

End PoolClaims.

(** C6, as stated, fails for a second index that always fails: the batch is
  aborted by the first one, after the other has been attempted three
  times only. *)
Lemma retry_bound_second_failing_item :
let r := Pool.evaluate (λ v : nat, v) 3 1 (λ _ _, true) (λ _, 0) (λ _, true)
           [7; 8] in
r.2 = Pool.Raised (Pool.EvaluationError 0) ∧
Pool.attempted 0 r.1 = 4 ∧
Pool.attempted 1 r.1 = 3 ∧
Pool.attempted 1 r.1 ≠ 3 + 1.
Proof. vm_compute. repeat split; discriminate. Qed.


(** ** The statements at the example run *)

Section Witnesses.
Import Py File Chain.

Lemma chain_rows_per_walker_iteration_witness :
  length (writeXSpecChain ex_fmt_g ex_chain ex_lnprob ex_params ex_paridxs).1
  = 4 + shape0 ex_chain * shape1 ex_chain.
Proof.
  destruct (chain_rows_per_walker_iteration ex_fmt_g ex_chain ex_lnprob
              ex_params ex_paridxs) as (_ & Hlen & _);
    [reflexivity|reflexivity|reflexivity|reflexivity| |exact Hlen].
  repeat constructor; unfold valid_index; simpl; lia.
Defined.

Lemma chain_header_one_line_witness :
  ∃ es rows,
    (writeXSpecChain ex_fmt_g ex_chain ex_lnprob ex_params ex_paridxs).1
    = preamble ex_chain ++
      ["!" +:+ join " " (es ++ ["Chi-Squared"]) +:+ nl] ++ rows ∧
    length es = length ex_paridxs.
Proof.
  destruct (chain_header_one_line ex_fmt_g ex_chain ex_lnprob
              ex_params ex_paridxs) as (es & rows & Hout & Hlen & _).
  - repeat constructor; unfold valid_index; simpl; lia.
  - exists es, rows. split; [exact Hout|exact Hlen].
Defined.

Lemma chain_header_catalogue_order_witness :
  ∃ es,
    (writeXSpecChain ex_fmt_g ex_chain ex_lnprob ex_params ex_paridxs).1 !! 3
    = Some ("!" +:+ join " " (es ++ ["Chi-Squared"]) +:+ nl) ∧
    length es = length ex_paridxs.
Proof.
  destruct (chain_header_catalogue_order ex_fmt_g ex_chain ex_lnprob
              ex_params ex_paridxs) as (es & Hout & Hlen & _).
  - repeat constructor; unfold valid_index; simpl; lia.
  - exists es. split; [exact Hout|exact Hlen].
Defined.

Lemma chain_header_empty_unit_witness :
  ∃ es,
    (writeXSpecChain ex_fmt_g ex_chain ex_lnprob ex_params ex_paridxs).1 !! 3
    = Some ("!" +:+ join " " (es ++ ["Chi-Squared"]) +:+ nl) ∧
    es !! 1 = Some (fmt_i 2 +:+ " " +:+ "norm" +:+ " " +:+ "0").
Proof.
  destruct (chain_header_empty_unit ex_fmt_g ex_chain ex_lnprob
              ex_params ex_paridxs) as (es & Hout & Hunit).
  - repeat constructor; unfold valid_index; simpl; lia.
  - exists es. split; [exact Hout|].
    apply (Hunit 1 2%Z (Param "norm" "")); reflexivity.
Defined.

Lemma chain_length_width_consistent_witness :
  (writeXSpecChain ex_fmt_g ex_chain ex_lnprob ex_params ex_paridxs).1 !! 2
  = Some ("!Length: " +:+ fmt_i 4 +:+ "  Width: " +:+ fmt_i 3 +:+ nl) ∧
  length (drop 4 (writeXSpecChain ex_fmt_g ex_chain ex_lnprob ex_params
                    ex_paridxs).1) = 4.
Proof.
  destruct (chain_length_width_consistent ex_fmt_g ex_chain ex_lnprob
              ex_params ex_paridxs) as (Hline & Hrows & _);
    [ |reflexivity|reflexivity|reflexivity|reflexivity| |].
  - intros x. unfold ex_fmt_g. destruct (PrimFloat.ltb x 0); reflexivity.
  - repeat constructor; unfold valid_index; simpl; lia.
  - split; [exact Hline|exact Hrows].
Defined.

End Witnesses.

(** ** The pool on two small scenarios *)

Section Scenarios.
Import Pool.
Local Open Scope Z_scope.

(** Two workers, five vectors, nothing fails: the likelihoods come back
    in the order of the batch although they complete out of order. *)
Example two_workers_five_vectors :
  evaluate sumsq 3 2 (λ _ _, false) (λ t, S t) (λ _, true)
           [[1]; [2]; [1; 1]; [3]; [0]]
  = ([1; 0; 3; 2; 4]%nat, Returned [-1; -4; -2; -9; 0]).
Proof. vm_compute. reflexivity. Qed.

(** One worker that dies on its second call, three vectors: one restart,
    no error, the same results. *)
Example one_worker_one_crash :
  evaluate sumsq 3 1 (λ i r, (i =? 1)%nat && (r =? 0)%nat) (λ _, 0%nat)
           (λ _, true) [[1]; [2]; [3]]
  = ([0; 1; 2; 1]%nat, Returned [-1; -4; -9]).
Proof. vm_compute. reflexivity. Qed.

End Scenarios.

(** * Further properties of the code *)

(** ** Python indexing *)

Section IndexFacts.
Import Py Chain.

Lemma getitem_in_range {A} (l : list A) (i : Z) :
  is_Some (getitem l i) ↔ in_range l i.
Proof.
  unfold getitem, in_range.
  destruct (Z.leb_spec 0 i) as [Hi|Hi].
  - rewrite lookup_lt_is_Some. lia.
  - destruct (Z.leb_spec (- Z.of_nat (length l)) i) as [Hi'|Hi'].
    + rewrite lookup_lt_is_Some. lia.
    + split; [by intros [? ?]|lia].
Qed.

(** A negative index counts from the end: the item is the one at the
    index modulo the length. *)
Lemma getitem_mod {A} (l : list A) (i : Z) :
  in_range l i →
  getitem l i = l !! Z.to_nat (i mod Z.of_nat (length l)).
Proof.
  unfold getitem, in_range. intros Hi.
  destruct (Z.leb_spec 0 i) as [H0|H0].
  - by rewrite Z.mod_small by lia.
  - destruct (Z.leb_spec (- Z.of_nat (length l)) i) as [_|]; [|lia].
    f_equal. f_equal.
    rewrite <- (Z.mod_add i 1) by lia. rewrite Z.mod_small; lia.
Qed.

Lemma entries_is_Some params paridxs :
  is_Some (entries params paridxs) ↔
  Forall (λ idx, in_range params (idx - 1)) paridxs.
Proof.
  unfold entries. rewrite mapM_is_Some. apply Forall_iff. intros idx. simpl.
  rewrite <- getitem_in_range, fmap_is_Some. done.
Qed.

Lemma entries_lookup params paridxs es :
  entries params paridxs = Some es →
  length es = length paridxs ∧
  ∀ k idx, paridxs !! k = Some idx →
    ∃ p, getitem params (idx - 1) = Some p ∧ es !! k = Some (hdr_entry idx p).
Proof.
  unfold entries. intros HF%mapM_Some. split.
  - symmetry. by eapply Forall2_length.
  - intros k idx Hk.
    destruct (Forall2_lookup_l _ _ _ _ _ HF Hk) as (e & He & Hf).
    destruct (getitem params (idx - 1)) as [p|]; simplify_eq/=. eauto.
Qed.

End IndexFacts.

(** ** How a write fails *)

Section ChainErrors.
Import Py File Chain.
Variable fmt_g : float → string.

(** X1: when some catalogue index is outside Python's range for [params],
    the write raises [IndexError] and the file is left with the two comment
    lines and the size declaration only: no header line, no data row. *)
Theorem chain_index_error chain lnprob params paridxs :
  Exists (λ idx, ¬ in_range params (idx - 1)) paridxs →
  writeXSpecChain fmt_g chain lnprob params paridxs
  = (preamble chain, inl IndexError).
Proof.
  intros Hbad. rewrite writeXSpecChain_eq.
  destruct (entries params paridxs) as [es|] eqn:Hes; [|done].
  exfalso. apply Exists_not_Forall in Hbad. apply Hbad.
  apply entries_is_Some. by rewrite Hes.
Qed.

(** X2: when the indices are fine and the two arrays disagree on the
    number of walkers or of iterations, the write raises [ValueError]
    after the header line: the file holds the preamble and the header
    line, and not a single data row. *)
Theorem chain_shape_error chain lnprob params paridxs :
  Forall (λ idx, in_range params (idx - 1)) paridxs →
  shape0 chain ≠ lshape0 lnprob ∨ shape1 chain ≠ lshape1 lnprob →
  ∃ es, length es = length paridxs ∧
        writeXSpecChain fmt_g chain lnprob params paridxs
        = (preamble chain ++ [header_line es], inl ValueError).
Proof.
  intros [es Hes]%entries_is_Some Hshape.
  exists es. split; [by apply (entries_lookup _ _ _ Hes)|].
  rewrite writeXSpecChain_eq, Hes. unfold dstack_neg.
  destruct Hshape as [H%Nat.eqb_neq|H%Nat.eqb_neq]; rewrite H; simpl;
    [done|by rewrite andb_false_r].
Qed.

(** X3: the write succeeds exactly when every index is within Python's
    range for [params] and the arrays agree on their first two axes. *)
Theorem chain_write_succeeds_iff chain lnprob params paridxs :
  (writeXSpecChain fmt_g chain lnprob params paridxs).2 = inr tt ↔
  Forall (λ idx, in_range params (idx - 1)) paridxs ∧
  shape0 chain = lshape0 lnprob ∧ shape1 chain = lshape1 lnprob.
Proof.
  rewrite writeXSpecChain_eq, <- entries_is_Some.
  destruct (entries params paridxs) as [es|]; simpl.
  - unfold dstack_neg.
    destruct (Nat.eqb_spec (shape0 chain) (lshape0 lnprob)) as [E0|E0];
      destruct (Nat.eqb_spec (shape1 chain) (lshape1 lnprob)) as [E1|E1];
      simpl; split; try done; try (by intros (_ & ? & ?)).
  - split; [done|]. by intros [[? ?] _].
Qed.

(** X4: indices from [1 - len(params)] to [len(params)] are all accepted;
    the entry of index [idx] shows the catalogue entry at position
    [(idx - 1) mod len(params)], so that index 0 shows the last one. *)
Theorem chain_header_wraps_around chain lnprob params paridxs :
  Forall (λ idx, in_range params (idx - 1)) paridxs →
  ∃ es,
    (writeXSpecChain fmt_g chain lnprob params paridxs).1 !! 3
    = Some (header_line es) ∧
    ∀ k idx, paridxs !! k = Some idx →
      ∃ p, params !! Z.to_nat ((idx - 1) mod Z.of_nat (length params)) = Some p ∧
           es !! k = Some (hdr_entry idx p).
Proof.
  intros Hidx. pose proof Hidx as [es Hes]%entries_is_Some.
  destruct (chain_file_layout fmt_g chain lnprob _ _ _ Hes) as (rows & Hout & _).
  exists es. rewrite Hout. split; [done|].
  intros k idx Hk.
  destruct (entries_lookup _ _ _ Hes) as [_ Hlook].
  destruct (Hlook k idx Hk) as (p & Hp & He).
  exists p. split; [|done]. rewrite <- getitem_mod; [done|].
  rewrite Forall_forall in Hidx. apply Hidx. by eapply list_elem_of_lookup_2.
Qed.

End ChainErrors.

(** ** The characters of a formatted integer *)

Section IntegerText.
Import Py.

Lemma string_forallb_impl (f g : ascii → bool) s :
  (∀ c, f c = true → g c = true) →
  string_forallb f s = true → string_forallb g s = true.
Proof.
  intros Hfg. induction s as [|a s IH]; [done|]. simpl.
  intros [Ha Hs]%andb_true_iff. by rewrite (Hfg _ Ha), IH.
Qed.

Lemma string_forallb_count (f : ascii → bool) c s :
  string_forallb f s = true → f c = false → count_char c s = 0.
Proof.
  intros Hs Hc. induction s as [|a s IH]; [done|]. simpl in *.
  apply andb_true_iff in Hs as [Ha Hs].
  rewrite decide_False by congruence. by rewrite IH.
Qed.

Lemma uint_digits d :
  string_forallb digit_or_minus (NilEmpty.string_of_uint d) = true.
Proof. induction d; simpl; by rewrite ?IHd. Qed.

Lemma fmt_i_chars n : string_forallb digit_or_minus (fmt_i n) = true.
Proof.
  unfold fmt_i, NilZero.string_of_int, NilZero.string_of_uint.
  destruct (Z.to_int n) as [d|d]; destruct d; simpl; by rewrite ?uint_digits.
Qed.

Lemma fmt_i_nonempty n : fmt_i n ≠ "".
Proof.
  unfold fmt_i, NilZero.string_of_int, NilZero.string_of_uint.
  destruct (Z.to_int n) as [d|d]; destruct d; simpl; discriminate.
Qed.

Lemma fmt_i_token n : token (fmt_i n).
Proof.
  split; [apply fmt_i_nonempty|].
  apply (string_forallb_impl digit_or_minus); [|apply fmt_i_chars].
  intros c Hc.
  destruct c as [[|] [|] [|] [|] [|] [|] [|] [|]]; simpl in *; congruence.
Qed.

Lemma fmt_i_one_line n : one_line (fmt_i n).
Proof.
  unfold one_line. eapply string_forallb_count; [apply fmt_i_chars|done].
Qed.

End IntegerText.

(** ** The words of the header line *)

Section HeaderWords.
Import Py File Chain.
Variable fmt_g : float → string.

Lemma join_cons_cons sep (x y : string) l :
  join sep (x :: y :: l) = x +:+ sep +:+ join sep (y :: l).
Proof. reflexivity. Qed.

Lemma join_cons_ne sep (x : string) l :
  l ≠ [] → join sep (x :: l) = x +:+ sep +:+ join sep l.
Proof. by destruct l. Qed.

Lemma join_app sep (l1 l2 : list string) :
  l1 ≠ [] → l2 ≠ [] →
  join sep (l1 ++ l2) = join sep l1 +:+ sep +:+ join sep l2.
Proof.
  intros H1 H2. induction l1 as [|x l1 IH]; [done|].
  destruct l1 as [|y l1].
  - destruct l2 as [|z l2]; [done|]. reflexivity.
  - change ((x :: y :: l1) ++ l2) with (x :: y :: (l1 ++ l2)).
    rewrite !join_cons_cons.
    change (y :: l1 ++ l2) with ((y :: l1) ++ l2).
    rewrite IH by done. by rewrite !append_assoc.
Qed.

Lemma join_bang (x : string) l :
  "!" +:+ join " " (x :: l) = join " " (("!" +:+ x) :: l).
Proof. destruct l; [done|]. by rewrite !join_cons_cons. Qed.

Lemma token_bang t : token t → token ("!" +:+ t).
Proof. intros [Hne Hns]. split; [done|]. unfold no_space in *. simpl. done. Qed.

Lemma split_line s : split (s +:+ nl) = split s.
Proof.
  unfold split, nl. rewrite split_go_cut by done.
  rewrite split_go_nil. unfold flush. by rewrite decide_True, app_nil_r.
Qed.

Lemma hdr_entry_join idx p : hdr_entry idx p = join " " (entry_tokens idx p).
Proof. reflexivity. Qed.

Lemma header_line_tokens params paridxs es :
  entries params paridxs = Some es →
  header_line es = "!" +:+ join " " (header_tokens params paridxs) +:+ nl.
Proof.
  intros Hes. unfold header_line, header_tokens. do 2 f_equal.
  unfold entries in Hes. apply mapM_Some in Hes.
  induction Hes as [|idx e paridxs es He _ IH]; [done|].
  rewrite bind_cons.
  destruct (getitem params (idx - 1)) as [p|]; [|discriminate He].
  injection He as <-. cbn [from_option app].
  change ((hdr_entry idx p :: es) ++ ["Chi-Squared"])
    with (hdr_entry idx p :: (es ++ ["Chi-Squared"])).
  rewrite hdr_entry_join.
  rewrite join_cons_ne by (by destruct es).
  rewrite IH, <- app_assoc.
  rewrite (join_app " " (entry_tokens idx p)); [done|discriminate|].
  by destruct (paridxs ≫= _).
Qed.

Lemma header_tokens_Forall (P : string → Prop) params paridxs :
  (∀ n, P (fmt_i n)) → P "0" → P "Chi-Squared" →
  Forall (λ p, P (par_name p) ∧ (par_unit p = "" ∨ P (par_unit p))) params →
  Forall P (header_tokens params paridxs).
Proof.
  intros Hi H0 Hchi Hp. unfold header_tokens.
  apply Forall_app. split; [|by repeat constructor].
  apply Forall_bind. apply Forall_forall. intros idx _. unfold compose.
  destruct (getitem params (idx - 1)) as [p|] eqn:Hget; simpl; [|constructor].
  assert (p ∈ params) as Hin.
  { unfold getitem in Hget. repeat case_match; try done;
      by eapply list_elem_of_lookup_2. }
  rewrite Forall_forall in Hp. destruct (Hp p Hin) as [Hn Hu].
  apply Forall_cons; split; [apply Hi|].
  apply Forall_cons; split; [apply Hn|].
  apply Forall_cons; split; [|constructor].
  destruct (decide (par_unit p = "")) as [|Hne]; [done|].
  by destruct Hu.
Qed.

Lemma header_tokens_token params paridxs :
  Forall worded params → Forall token (header_tokens params paridxs).
Proof.
  apply header_tokens_Forall; [apply fmt_i_token|done..].
Qed.

Lemma header_tokens_length params paridxs :
  Forall (λ idx, in_range params (idx - 1)) paridxs →
  length (header_tokens params paridxs) = 3 * length paridxs + 1.
Proof.
  intros Hidx. unfold header_tokens. rewrite length_app. simpl.
  induction Hidx as [|idx paridxs Hi _ IH]; [done|].
  apply getitem_in_range in Hi as [p Hp].
  rewrite bind_cons, Hp, length_app. simpl in *. lia.
Qed.

(** X5: when every name is one word and every unit is one word or empty,
    splitting the header line at whitespace gives back exactly three words
    per index (the index, the name, and the unit or [0]) and then
    [Chi-Squared], the mark [!] being glued to the first word: the [0]
    keeps the entries three words long. *)
Theorem chain_header_words chain lnprob params paridxs :
  Forall (λ idx, in_range params (idx - 1)) paridxs →
  Forall worded params →
  ∃ hdr t ts,
    (writeXSpecChain fmt_g chain lnprob params paridxs).1 !! 3 = Some hdr ∧
    header_tokens params paridxs = t :: ts ∧
    split hdr = ("!" +:+ t) :: ts ∧
    length (split hdr) = 3 * length paridxs + 1.
Proof.
  intros Hidx Hworded. pose proof Hidx as [es Hes]%entries_is_Some.
  destruct (chain_file_layout fmt_g chain lnprob _ _ _ Hes) as (rows & Hout & _).
  pose proof (header_tokens_token params paridxs Hworded) as Htok.
  pose proof (header_tokens_length params paridxs Hidx) as Hlen.
  destruct (header_tokens params paridxs) as [|t ts] eqn:Htoks; [simpl in Hlen; lia|].
  exists (header_line es), t, ts. rewrite Hout. split; [done|]. split; [done|].
  assert (split (header_line es) = ("!" +:+ t) :: ts) as Hsplit.
  { rewrite (header_line_tokens _ _ _ Hes), Htoks.
    rewrite <- append_assoc, split_line, join_bang.
    apply split_join_tokens. inversion Htok; subst.
    constructor; [by apply token_bang|done]. }
  split; [done|]. rewrite Hsplit. simpl in *. lia.
Qed.

End HeaderWords.

(** ** The lines of the file *)

Section ChainLines.
Import Py File Chain.
Variable fmt_g : float → string.

Lemma count_char_content c (f : file) :
  count_char c (content f) = sum_list (count_char c <$> f).
Proof.
  unfold content. induction f as [|s f IH]; [done|].
  rewrite concat_nil_cons, count_char_append, IH. done.
Qed.

Lemma count_char_join_zero c sep ss :
  count_char c sep = 0 → Forall (λ s, count_char c s = 0) ss →
  count_char c (join sep ss) = 0.
Proof.
  intros Hsep. induction 1 as [|s ss Hs Hss IH]; [done|].
  destruct ss as [|s' ss]; [done|].
  rewrite join_cons_cons, !count_char_append, Hs, Hsep, IH. done.
Qed.

Lemma row_text_one_line line :
  (∀ x, one_line (fmt_g x)) → count_char lf (row_text fmt_g line) = 1.
Proof.
  intros Hg. unfold row_text. rewrite count_char_append, count_char_join_zero.
  - reflexivity.
  - reflexivity.
  - apply Forall_forall. intros s Hs%list_elem_of_In.
    apply in_map_iff in Hs as (x & <- & _). apply Hg.
Qed.

Lemma header_line_one_line params paridxs es :
  Forall (λ p, one_line (par_name p) ∧ one_line (par_unit p)) params →
  entries params paridxs = Some es →
  count_char lf (header_line es) = 1.
Proof.
  intros Hp Hes. rewrite (header_line_tokens _ _ _ Hes).
  rewrite !count_char_append, count_char_join_zero; [reflexivity..|].
  apply (header_tokens_Forall one_line); [apply fmt_i_one_line|done..|].
  eapply Forall_impl; [exact Hp|]. intros p [? ?]. by eauto.
Qed.

Lemma preamble_one_line chain :
  Forall (λ s, count_char lf s = 1) (preamble chain).
Proof.
  unfold preamble, comment_lines.
  repeat (apply Forall_cons; split); [reflexivity..| |constructor].
  unfold length_line.
  rewrite !count_char_append, !fmt_i_one_line. reflexivity.
Qed.

(** X6: when neither a formatted number nor a name nor a unit contains a
    line feed, a successful write leaves exactly [4 + walkers * iterations]
    line feeds in the file: two comment lines, the size declaration, the
    header line, and one line per data row. *)
Theorem chain_line_count chain lnprob params paridxs :
  (∀ x, one_line (fmt_g x)) →
  Forall (λ p, one_line (par_name p) ∧ one_line (par_unit p)) params →
  wf3 chain = true → wf2 lnprob = true →
  shape0 chain = lshape0 lnprob → shape1 chain = lshape1 lnprob →
  Forall (λ idx, in_range params (idx - 1)) paridxs →
  count_char lf (content (writeXSpecChain fmt_g chain lnprob params paridxs).1)
  = 4 + shape0 chain * shape1 chain.
Proof.
  intros Hg Hp Hc Hl E0 E1 [es Hes]%entries_is_Some.
  destruct (dstack_neg_shape _ _ Hc Hl E0 E1) as (ws & Hws & Hlen & Hrows & _).
  rewrite writeXSpecChain_eq, Hes, Hws. cbn [fst].
  rewrite count_char_content.
  rewrite (sum_list_fmap_same 1).
  - rewrite !length_app, length_map, length_join.
    rewrite (sum_list_fmap_same (shape1 chain)) by done.
    rewrite Hlen. simpl. lia.
  - apply Forall_app. split; [apply preamble_one_line|].
    apply Forall_cons. split; [by eapply header_line_one_line|].
    apply Forall_forall. intros r Hr%list_elem_of_In.
    apply in_map_iff in Hr as (line & <- & _). by apply row_text_one_line.
Qed.

(** X7: the [%] operator on the row format succeeds exactly when it is
    given as many numbers as the format has conversions, and then gives
    the numbers joined by tabs; otherwise it raises [TypeError].  The
    writer builds the format from the length of the row, which is why a
    row never fails. *)
Theorem format_g_arity n (args : list float) :
  format_g fmt_g (join tab (replicate n "%g")) args
  = if decide (n = length args) then inr (join tab (map fmt_g args))
    else inl TypeError.
Proof.
  revert args. induction n as [|n IH]; intros args.
  - by destruct args.
  - destruct n as [|n].
    + destruct args as [|x [|y args]]; [done| |done].
      simpl. by rewrite append_nil_r.
    + change (join tab (replicate (S (S n)) "%g"))
        with (String "%" (String "g" (String "009"
                (join tab (replicate (S n) "%g"))))).
      destruct args as [|x args]; [done|].
      cbn [format_g]. rewrite IH. simpl length.
      destruct (decide (S n = length args)) as [Hn|Hn].
      * rewrite decide_True by lia. destruct args; [done|]. reflexivity.
      * rewrite decide_False by lia. done.
Qed.

End ChainLines.

(** ** Stacking and unstacking *)

Section Stacking.
Import Py Chain.
Local Open Scope float_scope.

Lemma opp_involutive (x : float) : - - x = x.
Proof.
  apply Prim2SF_inj. rewrite !opp_spec.
  destruct (Prim2SF x) as [s|s| |s m e]; simpl; by rewrite ?negb_involutive.
Qed.

Lemma unstack_rows c (a : list (list float)) (b : list float) :
  Forall (λ r, length r = c) a → length a = length b →
  take c <$> zip_with (λ row l, row ++ [- l]) a b = a ∧
  (λ r, opp <$> last r) <$> zip_with (λ row l, row ++ [- l]) a b = Some <$> b.
Proof.
  intros Ha. revert b. induction Ha as [|r a Hr _ IH]; intros [|l b] Hlen;
    simplify_eq/=; [done|].
  destruct (IH b) as [-> ->]; [done|]. split.
  - by rewrite take_app_length'.
  - rewrite last_snoc. simpl. by rewrite opp_involutive.
Qed.

(** X8: for well-formed arrays of matching shape, the stacked array holds
    both inputs: cutting every row to the number of parameters gives the
    chain back, and negating the last field of every row gives the
    log-probabilities back. *)
Theorem dstack_neg_round_trip chain lnprob :
  wf3 chain = true → wf2 lnprob = true →
  shape0 chain = lshape0 lnprob → shape1 chain = lshape1 lnprob →
  ∃ ws, dstack_neg chain lnprob = inr ws ∧
        (λ w : list (list float), take (shape2 chain) <$> w) <$> ws
        = items3 chain ∧
        (λ w : list (list float), (λ r, opp <$> last r) <$> w) <$> ws
        = (λ w : list float, Some <$> w) <$> items2 lnprob.
Proof.
  intros [Hc0 Hc]%wf3_shape [Hl0 Hl]%wf2_shape E0 E1.
  unfold dstack_neg. rewrite E0, E1, !Nat.eqb_refl. simpl.
  eexists. split; [reflexivity|].
  rewrite <- E0, <- E1 in *. rewrite <- Hl0 in Hc0. clear E0 E1 Hl0.
  destruct chain as [n0 n1 n2 A], lnprob as [m0 m1 B]. simpl in *.
  revert B Hl Hc0. induction Hc as [|w A [Hw Hrows] _ IH]; intros [|lw B] Hl Hlen;
    simplify_eq/=; [done|].
  apply Forall_cons in Hl as [Hlw Hl].
  destruct (IH B) as [-> ->]; [done..|].
  destruct (unstack_rows n2 w lw) as [-> ->]; [done|congruence|]. done.
Qed.

End Stacking.

(** ** The deviates behind the initial positions *)

Section Draws.
Import Py MCMC.
Local Open Scope float_scope.
Variable gauss : nat → float.






End Draws.

(** ** The sign of the scale *)

Section ScaleSign.
Import Py MCMC.
Local Open Scope float_scope.

Lemma normal_sign x :
  (min_normal <=? abs x) = true →
  (x <? 0) = true ∨ ((min_normal <=? x) = true ∧ (x <? 0) = false).
Proof.
  rewrite !FloatAxioms.leb_spec, FloatAxioms.abs_spec, FloatAxioms.ltb_spec.
  rewrite Prim2SF_min_normal, Prim2SF_zero.
  destruct (Prim2SF x) as [s|s| |s m e]; simpl SFabs; intros Hle; try done;
    destruct s; try (by left); by right.
Qed.

(** X11: for an initial value in the normal range the scale is negative
    exactly when the initial value is: the code takes one percent of the
    value, not of its magnitude. *)
Theorem parerrs_sign (parvals : list float) i x :
  parvals !! i = Some x → (min_normal <=? abs x) = true →
  ∃ s, parerrs parvals !! i = Some s ∧ (s <? 0) = (x <? 0).
Proof.
  intros Hx Hnormal. eexists. split; [by apply parerrs_lookup|].
  destruct (normal_sign x Hnormal) as [Hneg|[Hpos Hnn]].
  - destruct (scale_negative_normal x Hneg Hnormal) as [-> ->]. by rewrite Hneg.
  - rewrite Hnn. destruct (x =? 0); [reflexivity|].
    by apply scale_positive_normal.
Qed.

End ScaleSign.

(** ** More on the host list *)

Section SystemsMore.
Import Py Main.

(** X12: a whitespace character in the value separates hosts: the hosts
    of [s1 c s2] are the hosts of [s1] followed by the hosts of [s2]. *)
Theorem systems_cut s1 c s2 :
  isspace c = true →
  systems (Some (s1 +:+ String c s2))
  = systems (Some s1) ++ systems (Some s2).
Proof.
  intros Hc. unfold systems, args_systems, split. simpl.
  by apply split_go_cut.
Qed.

(** X13: writing the hosts again, one space between two of them, and
    reading that value gives the same hosts: only the words of the value
    matter, not its spacing. *)
Theorem systems_rejoin s :
  systems (Some (join " " (systems (Some s)))) = systems (Some s).
Proof.
  unfold systems, args_systems. simpl.
  apply split_join_tokens. unfold split. by apply split_go_tokens.
Qed.

End SystemsMore.

(** ** The further statements at the example inputs *)

Section MoreWitnesses.
Import Py File Chain MCMC Main.

Lemma chain_index_error_witness :
  writeXSpecChain ex_fmt_g ex_chain ex_lnprob ex_params ex_bad_paridxs
  = (preamble ex_chain, inl IndexError).
Proof.
  apply chain_index_error.
  apply Exists_cons_tl, Exists_cons_hd. unfold in_range. simpl. lia.
Defined.

Lemma chain_shape_error_witness :
  ∃ es, length es = length ex_paridxs ∧
        writeXSpecChain ex_fmt_g ex_chain ex_short_lnprob ex_params ex_paridxs
        = (preamble ex_chain ++ [header_line es], inl ValueError).
Proof.
  apply chain_shape_error.
  - repeat constructor; unfold in_range; simpl; lia.
  - left. simpl. lia.
Defined.

Lemma chain_header_wraps_around_witness :
  ∃ es,
    (writeXSpecChain ex_fmt_g ex_chain ex_lnprob ex_params ex_wrap_paridxs).1 !! 3
    = Some (header_line es) ∧
    es !! 0 = Some (hdr_entry 0 (Param "norm" "")).
Proof.
  destruct (chain_header_wraps_around ex_fmt_g ex_chain ex_lnprob ex_params
              ex_wrap_paridxs) as (es & Hout & Hk).
  - repeat constructor; unfold in_range; simpl; lia.
  - exists es. split; [exact Hout|].
    destruct (Hk 0 0%Z eq_refl) as (p & Hp & He).
    simpl in Hp. injection Hp as <-. exact He.
Defined.

Lemma chain_header_words_witness :
  ∃ hdr,
    (writeXSpecChain ex_fmt_g ex_chain ex_lnprob ex_params ex_paridxs).1 !! 3
    = Some hdr ∧
    length (split hdr) = 7.
Proof.
  destruct (chain_header_words ex_fmt_g ex_chain ex_lnprob ex_params ex_paridxs)
    as (hdr & t & ts & Hout & _ & _ & Hlen).
  - repeat constructor; unfold in_range; simpl; lia.
  - repeat constructor; simpl; try discriminate; by right.
  - exists hdr. split; [exact Hout|exact Hlen].
Defined.

Lemma chain_line_count_witness :
  count_char lf
    (content (writeXSpecChain ex_fmt_g ex_chain ex_lnprob ex_params ex_paridxs).1)
  = 8.
Proof.
  apply (chain_line_count ex_fmt_g ex_chain ex_lnprob ex_params ex_paridxs).
  - intros x. unfold ex_fmt_g. destruct (PrimFloat.ltb x 0); reflexivity.
  - repeat constructor.
  - reflexivity.
  - reflexivity.
  - reflexivity.
  - reflexivity.
  - repeat constructor; unfold in_range; simpl; lia.
Defined.

Lemma dstack_neg_round_trip_witness :
  ∃ ws, dstack_neg ex_chain ex_lnprob = inr ws ∧
        (λ w : list (list float), take 2 <$> w) <$> ws = items3 ex_chain.
Proof.
  destruct (dstack_neg_round_trip ex_chain ex_lnprob)
    as (ws & Hws & Hchain & _); [reflexivity..|].
  exists ws. split; [exact Hws|exact Hchain].
Defined.


Lemma parerrs_sign_witness :
  ∃ s, parerrs ex_negative_parvals !! 1 = Some s ∧ (s <? 0)%float = true.
Proof.
  destruct (parerrs_sign ex_negative_parvals 1 (-2)%float) as (s & Hs & Hsign);
    [reflexivity|reflexivity|].
  exists s. split; [exact Hs|exact Hsign].
Defined.

Lemma systems_cut_witness :
  systems (Some ("node1" +:+ String " " "node2"))
  = systems (Some "node1") ++ systems (Some "node2").
Proof. apply systems_cut. reflexivity. Defined.



End MoreWitnesses.
